(** * pkg/cluster/cluster.go: a shallow embedding and its properties

    The file follows the Go source top-down: strings and regular
    expressions (package [strings], [regexp]), the Kubernetes objects the
    cluster code reads, the [Cluster] state with its collaborators, and
    then the operations of [cluster.go] themselves. *)

From Stdlib Require Import ZArith QArith Qcanon Qround Ascii String.
From stdpp Require Import base numbers option list gmap strings pretty.

Set Default Proof Using "Type".
Local Open Scope Z_scope.

(** * The model *)

(** ** Go strings

    A Go [string] is a sequence of bytes; it is modelled by [string]. *)

Module GoStrings.

(** [strings.HasPrefix s p] *)
Fixpoint HasPrefix (s p : string) {struct p} : bool :=
  match p, s with
  | "", _ => true
  | String a p', String b s' => bool_decide (a = b) && HasPrefix s' p'
  | String _ _, "" => false
  end.

(** [strings.Contains s sub]: [sub] occurs somewhere in [s]. *)
Fixpoint Contains (s sub : string) : bool :=
  HasPrefix s sub ||
  match s with
  | "" => false
  | String _ s' => Contains s' sub
  end.

(** [strings.LastIndex s sub]: the byte offset of the last occurrence
    of [sub] in [s], or [-1].  [i] is the offset of [s] in the whole
    string and [acc] the last occurrence seen so far. *)
Fixpoint LastIndex_go (s sub : string) (i acc : Z) : Z :=
  let acc' := if HasPrefix s sub then i else acc in
  match s with
  | "" => acc'
  | String _ s' => LastIndex_go s' sub (i + 1) acc'
  end.

Definition LastIndex (s sub : string) : Z := LastIndex_go s sub 0 (-1).

(** [s[n:]] for [0 <= n <= len(s)] *)
Fixpoint drop (n : nat) (s : string) : string :=
  match n, s with
  | O, _ => s
  | S n', String _ s' => drop n' s'
  | S _, "" => ""
  end.

End GoStrings.

(** ** Regular expressions (package [regexp])

    Only the constructs that the patterns of [cluster.go] use.  A
    character class is a predicate on bytes. *)

Module Regexp.
Import GoStrings.

Inductive regexp : Type :=
| Void
| Eps
| Class (p : ascii → bool)
| Cat (r1 r2 : regexp)
| Alt (r1 r2 : regexp)
| Star (r : regexp).

(** The language of a pattern. *)
Inductive Matches : regexp → string → Prop :=
| MEps : Matches Eps ""
| MClass p a : p a = true → Matches (Class p) (String a "")
| MCat r1 r2 s1 s2 :
    Matches r1 s1 → Matches r2 s2 → Matches (Cat r1 r2) (s1 +:+ s2)
| MAltL r1 r2 s : Matches r1 s → Matches (Alt r1 r2) s
| MAltR r1 r2 s : Matches r2 s → Matches (Alt r1 r2) s
| MStarNil r : Matches (Star r) ""
| MStarApp r s1 s2 :
    Matches r s1 → Matches (Star r) s2 → Matches (Star r) (s1 +:+ s2).

(** The matcher, by derivatives. *)
Fixpoint nullable (r : regexp) : bool :=
  match r with
  | Void => false
  | Eps => true
  | Class _ => false
  | Cat r1 r2 => nullable r1 && nullable r2
  | Alt r1 r2 => nullable r1 || nullable r2
  | Star _ => true
  end.

Fixpoint deriv (a : ascii) (r : regexp) : regexp :=
  match r with
  | Void => Void
  | Eps => Void
  | Class p => if p a then Eps else Void
  | Cat r1 r2 =>
      if nullable r1 then Alt (Cat (deriv a r1) r2) (deriv a r2)
      else Cat (deriv a r1) r2
  | Alt r1 r2 => Alt (deriv a r1) (deriv a r2)
  | Star r => Cat (deriv a r) (Star r)
  end.

Fixpoint accepts (r : regexp) (s : string) : bool :=
  match s with
  | "" => nullable r
  | String a s' => accepts (deriv a r) s'
  end.

(** Pattern syntax. *)
Definition Plus (r : regexp) : regexp := Cat r (Star r).

Fixpoint Lit (s : string) : regexp :=
  match s with
  | "" => Eps
  | String a s' => Cat (Class (λ b, bool_decide (b = a))) (Lit s')
  end.

Definition in_range (lo hi : ascii) (b : ascii) : bool :=
  (N.leb (N_of_ascii lo) (N_of_ascii b)) && (N.leb (N_of_ascii b) (N_of_ascii hi)).

(** [\d] *)
Definition digit (b : ascii) : bool := in_range "0" "9" b.
(** [\w] *)
Definition word (b : ascii) : bool :=
  in_range "0" "9" b || in_range "A" "Z" b || in_range "a" "z" b
  || bool_decide (b = "_"%char).
(** [.] without the [s] flag: anything but a line feed. *)
Definition dot (b : ascii) : bool := negb (bool_decide (b = "010"%char)).
Definition any (b : ascii) : bool := true.

(** [re.MatchString s] for a pattern without anchors: some substring
    of [s] is in the language.  Go matches runes and this model bytes;
    the classes of the patterns below are sets of ASCII characters, and
    the one [.] follows an ASCII character, so that it starts a rune and
    a rune other than a line feed is there exactly when a byte other
    than a line feed is. *)
Definition MatchString (r : regexp) (s : string) : bool :=
  accepts (Cat (Star (Class any)) (Cat r (Star (Class any)))) s.

(** [re.MatchString s] for a pattern [^r$]. *)
Definition MatchStringAnchored (r : regexp) (s : string) : bool :=
  accepts r s.

(** Every byte of [s] is in the class [p]. *)
Fixpoint all_in (p : ascii → bool) (s : string) : bool :=
  match s with
  | "" => true
  | String a s' => p a && all_in p s'
  end.

(** *** The patterns of [cluster.go] *)

Definition alpha (b : ascii) : bool := in_range "a" "z" b || in_range "A" "Z" b.
Definition alnum (b : ascii) : bool := alpha b || in_range "0" "9" b.

(** [^[a-zA-Z][a-zA-Z0-9]*$] *)
Definition alphaNumericRegexp : regexp := Cat (Class alpha) (Star (Class alnum)).

(** [[/a-z0-9]] *)
Definition devChar (b : ascii) : bool :=
  bool_decide (b = "/"%char) || in_range "a" "z" b || in_range "0" "9" b.

(** [The filesystem on [/a-z0-9]+ is now \d+ \(\d+\w+\) blocks long.]
    The final dot of the source is not escaped: it stands for any byte
    but a line feed. *)
Definition ext2fsSuccessRegexp : regexp :=
  Cat (Lit "The filesystem on ")
 (Cat (Plus (Class devChar))
 (Cat (Lit " is now ")
 (Cat (Plus (Class digit))
 (Cat (Lit " (")
 (Cat (Plus (Class digit))
 (Cat (Plus (Class word))
 (Cat (Lit ") blocks long")
      (Class dot)))))))).

(** What a match of [ext2fsSuccessRegexp] looks like:
    [The filesystem on <dev> is now <n> (<k><u>) blocks long<c>]. *)
Definition ext2fsSuccessLine (t : string) : Prop :=
  ∃ dev n k u c,
    t = "The filesystem on " +:+ dev +:+ " is now " +:+ n +:+ " (" +:+ k +:+ u
        +:+ ") blocks long" +:+ String c ""
    ∧ (dev ≠ "" ∧ all_in devChar dev = true)
    ∧ (n ≠ "" ∧ all_in digit n = true)
    ∧ (k ≠ "" ∧ all_in digit k = true)
    ∧ (u ≠ "" ∧ all_in word u = true)
    ∧ dot c = true.

End Regexp.

(** ** Go values *)

(** An [error] value: [None] is [nil], [Some msg] an error that prints
    as [msg]. *)
Definition error : Type := option string.

(** The outcome of running Go code that may panic (nil pointer
    dereference, index out of range, assignment to an entry of a nil
    map). *)
Inductive res (A : Type) : Type :=
| Val (a : A)
| Panicked (msg : string).
Arguments Val {A} a.
Arguments Panicked {A} msg.

#[global] Instance res_ret : MRet res := λ A a, Val a.
#[global] Instance res_bind : MBind res := λ A B f r,
  match r with
  | Val a => f a
  | Panicked msg => Panicked msg
  end.

(** [*p] *)
Definition deref {A} (p : option A) : res A :=
  match p with
  | Some a => Val a
  | None => Panicked "invalid memory address or nil pointer dereference"
  end.

(** [l[i]] *)
Definition index {A} (l : list A) (i : nat) : res A :=
  match l !! i with
  | Some a => Val a
  | None => Panicked "index out of range"
  end.

(** A value of [resource.Quantity] is modelled by the number it denotes;
    [Cmp] compares these numbers, the zero value denotes 0, and
    [ScaledValue(0)] rounds up to the next integer. *)
Abbreviation Quantity := Qc.

Definition Quantity_Cmp (q y : Quantity) : Z :=
  match (q ?= y)%Qc with
  | Lt => -1
  | Eq => 0
  | Gt => 1
  end.

Definition Quantity_ScaledValue0 (q : Quantity) : Z := Qceiling q.

(** [m[k]] on a [v1.ResourceList]: the zero value when [k] is absent or
    the map is nil. *)
Definition quantityAt (m : gmap string Quantity) (k : string) : Quantity :=
  default 0%Qc (m !! k).

(** [reflect.DeepEqual] on the values compared in this file (strings,
    slices, string maps and structs of these; no functions, no floating
    point, no cycles) is structural equality, where a nil slice or map
    differs from an empty one: nil-able slices and maps are [option]s. *)
Definition DeepEqual {A} `{EqDecision A} (x y : A) : bool := bool_decide (x = y).

(** ** Kubernetes objects

    The fields that [cluster.go] reads.  The three types below are only
    ever passed to [reflect.DeepEqual]; their declarations are in
    client-go. *)

Class K8sTypes : Type := {
  ContainerPort : Type;
  EnvVar : Type;
  PersistentVolumeClaimSpec : Type;
  ContainerPort_eq_dec :: EqDecision ContainerPort;
  EnvVar_eq_dec :: EqDecision EnvVar;
  PersistentVolumeClaimSpec_eq_dec :: EqDecision PersistentVolumeClaimSpec;
}.

(** [v1.ResourceRequirements] *)
Record ResourceRequirements : Type := {
  Limits : gmap string Quantity;
  Requests : gmap string Quantity;
}.

Section Objects.
Context `{K8sTypes}.

(** [v1.Container] *)
Record Container : Type := {
  Image : string;
  Ports : option (list ContainerPort);
  Resources : ResourceRequirements;
  Env : option (list EnvVar);
}.

(** [v1.PersistentVolumeClaim] *)
Record PersistentVolumeClaim : Type := {
  pvc_Name : string;
  pvc_Annotations : option (gmap string string);
  pvc_Spec : PersistentVolumeClaimSpec;
}.

(** [v1beta1.StatefulSet]; [Template_X] is [Spec.Template.X] for the
    labels and annotations and [Spec.Template.Spec.X] otherwise. *)
Record StatefulSet : Type := {
  Spec_Replicas : option Z;
  Template_Labels : option (gmap string string);
  Template_Annotations : option (gmap string string);
  Template_ServiceAccountName : string;
  Template_TerminationGracePeriodSeconds : option Z;
  Template_Containers : list Container;
  Spec_VolumeClaimTemplates : list PersistentVolumeClaim;
}.

(** [v1.Service] *)
Record Service : Type := {
  LoadBalancerSourceRanges : option (list string);
}.
End Objects.

(** [spec.Volume] *)
Record Volume : Type := {
  Size : string;
  StorageClass : string;
}.

#[global] Instance Volume_eq_dec : EqDecision Volume.
Proof. solve_decision. Defined.

(** [spec.NamespacedName] *)
Record NamespacedName : Type := {
  Namespace : string;
  Name : string;
}.

#[global] Instance NamespacedName_eq_dec : EqDecision NamespacedName.
Proof. solve_decision. Defined.

(** [v1.PersistentVolume]: [pv_Capacity] is [Spec.Capacity], a map that
    may be nil; [pv_ClaimRef] is the pointer [Spec.ClaimRef];
    [pv_AWSElasticBlockStore] is the pointer [Spec.AWSElasticBlockStore]
    with its [VolumeID]. *)
Record PersistentVolume : Type := {
  pv_Name : string;
  pv_Capacity : option (gmap string Quantity);
  pv_ClaimRef : option NamespacedName;
  pv_AWSElasticBlockStore : option string;
}.

(** [spec.PgUser] *)
Record PgUser : Type := {
  pg_Name : string;
  pg_Password : string;
  pg_Flags : list string;
  pg_MemberOf : list string;
}.

#[global] Instance PgUser_eq_dec : EqDecision PgUser.
Proof. solve_decision. Defined.

(** [spec.PostgresStatus] and its constants *)
Inductive PostgresStatus : Type :=
| ClusterStatusUnknown
| ClusterStatusCreating
| ClusterStatusUpdating
| ClusterStatusUpdateFailed
| ClusterStatusAddFailed
| ClusterStatusRunning
| ClusterStatusInvalid.

#[global] Instance PostgresStatus_eq_dec : EqDecision PostgresStatus.
Proof. solve_decision. Defined.

(** [spec.PodEvent], without the two pod objects it carries *)
Inductive EventType : Type := EventAdd | EventUpdate | EventDelete.

Record PodEvent : Type := {
  ClusterName : NamespacedName;
  PodName : NamespacedName;
  ResourceVersion : string;
  EventType_ : EventType;
}.

(** ** The workload-set differ *)

(** [compareResoucesAssumeFirstNotNil(a, b)]; both loops return [false]
    at the first key whose quantities differ, so the order in which the
    map is ranged over does not matter. *)
Definition compareResoucesAssumeFirstNotNil
    (a : ResourceRequirements) (b : option ResourceRequirements) : bool :=
  match b with
  | None => bool_decide (size (Requests a) = 0%nat)
  | Some b =>
      if bool_decide (size (Requests b) = 0%nat)
      then bool_decide (size (Requests a) = 0%nat)
      else if negb (forallb
                (λ kv, bool_decide (Quantity_Cmp kv.2 (quantityAt (Requests b) kv.1) = 0))
                (map_to_list (Requests a)))
      then false
      else if negb (forallb
                (λ kv, bool_decide (Quantity_Cmp kv.2 (quantityAt (Limits b) kv.1) = 0))
                (map_to_list (Limits a)))
      then false
      else true
  end.

(** [compareResources(a, b)] *)
Definition compareResources (a b : option ResourceRequirements) : bool :=
  let equal := true in
  let equal :=
    match a with
    | Some a' => compareResoucesAssumeFirstNotNil a' b
    | None => equal
    end in
  match b with
  | Some b' => if equal then compareResoucesAssumeFirstNotNil b' a else equal
  | None => equal
  end.

(** [compareStatefulsetResult] *)
Record compareStatefulsetResult : Type := {
  match_ : bool;
  replace : bool;
  rollingUpdate : bool;
  reasons : list string;
}.

(** The local variables [match], [needsRollUpdate], [needsReplace] and
    [reasons] of [compareStatefulSetWith]. *)
Record cmpVars : Type := {
  v_match : bool;
  needsRollUpdate : bool;
  needsReplace : bool;
  v_reasons : list string;
}.

Definition set_match (b : bool) (v : cmpVars) : cmpVars :=
  {| v_match := b; needsRollUpdate := needsRollUpdate v;
     needsReplace := needsReplace v; v_reasons := v_reasons v |}.
Definition set_needsRollUpdate (v : cmpVars) : cmpVars :=
  {| v_match := v_match v; needsRollUpdate := true;
     needsReplace := needsReplace v; v_reasons := v_reasons v |}.
Definition set_needsReplace (v : cmpVars) : cmpVars :=
  {| v_match := v_match v; needsRollUpdate := needsRollUpdate v;
     needsReplace := true; v_reasons := v_reasons v |}.
(** [reasons = append(reasons, r)] *)
Definition add_reason (r : string) (v : cmpVars) : cmpVars :=
  {| v_match := v_match v; needsRollUpdate := needsRollUpdate v;
     needsReplace := needsReplace v; v_reasons := v_reasons v ++ [r] |}.

(** [if cond { body }] on the local variables *)
Definition when (cond : bool) (body : cmpVars → cmpVars) (v : cmpVars) : cmpVars :=
  if cond then body v else v.

Section Differ.
Context `{K8sTypes}.

(** The loop over [c.Statefulset.Spec.VolumeClaimTemplates]: [todo]
    are the live templates from index [i] on, [new] all the templates
    of the desired object. *)
Fixpoint compareVolumeClaimTemplates (i : nat)
    (todo new : list PersistentVolumeClaim) (v : cmpVars) : res cmpVars :=
  match todo with
  | [] => Val v
  | t1 :: todo' =>
      let name := pvc_Name t1 in
      t2 ← index new i;
      if bool_decide (name ≠ pvc_Name t2) then
        compareVolumeClaimTemplates (S i) todo' new
          (add_reason ("new statefulset's name for volume " +:+ pretty i
                       +:+ " doesn't match the current one")
             (set_needsReplace v))
      else
        let v := when (negb (DeepEqual (pvc_Annotations t1) (pvc_Annotations t2)))
                   (λ v, add_reason ("new statefulset's annotations for volume "
                                     +:+ name +:+ " doesn't match the current one")
                           (set_needsReplace v)) v in
        let v := when (negb (DeepEqual (pvc_Spec t1) (pvc_Spec t2)))
                   (λ v, add_reason ("new statefulset's volumeClaimTemplates specification for volume "
                                     +:+ name +:+ " doesn't match the current one")
                           (set_needsReplace v)) v in
        compareVolumeClaimTemplates (S i) todo' new v
  end.

(** [c.compareStatefulSetWith(statefulSet)], with [cur] for
    [c.Statefulset]. *)
Definition compareStatefulSetWith (cur statefulSet : StatefulSet)
    : res compareStatefulsetResult :=
  let v := {| v_match := false; needsRollUpdate := false;
              needsReplace := false; v_reasons := [] |} in
  let v := set_match true v in
  r1 ← deref (Spec_Replicas cur);
  r2 ← deref (Spec_Replicas statefulSet);
  let v := when (bool_decide (r1 ≠ r2))
             (λ v, add_reason "new statefulset's number of replicas doesn't match the current one"
                     (set_match false v)) v in
  let v := when (bool_decide (length (Template_Containers cur)
                              ≠ length (Template_Containers statefulSet)))
             (λ v, add_reason "new statefulset's container specification doesn't match the current one"
                     (set_needsRollUpdate v)) v in
  if bool_decide (length (Template_Containers cur) = 0%nat) then
    mret {| match_ := false; replace := false; rollingUpdate := false; reasons := [] |}
  else
  let v := when (bool_decide (Template_ServiceAccountName cur
                              ≠ Template_ServiceAccountName statefulSet))
             (λ v, add_reason "new statefulset's serviceAccountName service asccount name doesn't match the current one"
                     (set_needsRollUpdate (set_needsReplace v))) v in
  g1 ← deref (Template_TerminationGracePeriodSeconds cur);
  g2 ← deref (Template_TerminationGracePeriodSeconds statefulSet);
  let v := when (bool_decide (g1 ≠ g2))
             (λ v, add_reason "new statefulset's terminationGracePeriodSeconds  doesn't match the current one"
                     (set_needsRollUpdate (set_needsReplace v))) v in
  let v := when (negb (DeepEqual (Template_Labels cur) (Template_Labels statefulSet)))
             (λ v, add_reason "new statefulset's metadata labels doesn't match the current one"
                     (set_needsRollUpdate (set_needsReplace v))) v in
  let v := when (negb (DeepEqual (Template_Annotations cur) (Template_Annotations statefulSet)))
             (λ v, add_reason "new statefulset's metadata annotations doesn't match the current one"
                     (set_needsReplace (set_needsRollUpdate v))) v in
  let v := when (bool_decide (length (Spec_VolumeClaimTemplates cur)
                              ≠ length (Spec_VolumeClaimTemplates statefulSet)))
             (λ v, add_reason "new statefulset's volumeClaimTemplates contains different number of volumes to the old one"
                     (set_needsReplace v)) v in
  v ← compareVolumeClaimTemplates 0 (Spec_VolumeClaimTemplates cur)
         (Spec_VolumeClaimTemplates statefulSet) v;
  container1 ← index (Template_Containers cur) 0;
  container2 ← index (Template_Containers statefulSet) 0;
  let v := when (bool_decide (Image container1 ≠ Image container2))
             (λ v, add_reason "new statefulset's container image doesn't match the current one"
                     (set_needsRollUpdate v)) v in
  let v := when (negb (DeepEqual (Ports container1) (Ports container2)))
             (λ v, add_reason "new statefulset's container ports don't match the current one"
                     (set_needsRollUpdate v)) v in
  let v := when (negb (compareResources (Some (Resources container1))
                                        (Some (Resources container2))))
             (λ v, add_reason "new statefulset's container resources don't match the current ones"
                     (set_needsRollUpdate v)) v in
  let v := when (negb (DeepEqual (Env container1) (Env container2)))
             (λ v, add_reason "new statefulset's container environment doesn't match the current one"
                     (set_needsRollUpdate v)) v in
  let v := when (needsRollUpdate v || needsReplace v) (set_match false) v in
  mret {| match_ := v_match v; reasons := v_reasons v;
          rollingUpdate := needsRollUpdate v; replace := needsReplace v |}.

(** [c.sameServiceWith(service)], with [cur] for [c.Service] *)
Definition sameServiceWith (cur service : Service) : bool * string :=
  if negb (DeepEqual (LoadBalancerSourceRanges cur) (LoadBalancerSourceRanges service))
  then (false, "new service's LoadBalancerSourceRange doesn't match the current one")
  else (true, "").

(** [c.sameVolumeWith(volume)], with [cur] for [c.Spec.Volume] *)
Definition sameVolumeWith (cur volume : Volume) : bool * string :=
  if negb (DeepEqual cur volume)
  then (false, "new volume's specification doesn't match the current one")
  else (true, "").

(** When the comparison does not panic. *)
Definition comparable (cur new : StatefulSet) : Prop :=
  is_Some (Spec_Replicas cur) ∧ is_Some (Spec_Replicas new)
  ∧ is_Some (Template_TerminationGracePeriodSeconds cur)
  ∧ is_Some (Template_TerminationGracePeriodSeconds new)
  ∧ (length (Spec_VolumeClaimTemplates cur)
     ≤ length (Spec_VolumeClaimTemplates new))%nat
  ∧ Template_Containers new ≠ [].

(** The desired object that differs from [s] in its containers only. *)
Definition with_Containers (cs : list Container) (s : StatefulSet) : StatefulSet :=
  {| Spec_Replicas := Spec_Replicas s;
     Template_Labels := Template_Labels s;
     Template_Annotations := Template_Annotations s;
     Template_ServiceAccountName := Template_ServiceAccountName s;
     Template_TerminationGracePeriodSeconds :=
       Template_TerminationGracePeriodSeconds s;
     Template_Containers := cs;
     Spec_VolumeClaimTemplates := Spec_VolumeClaimTemplates s |}.

End Differ.

(** ** The pod-event queue *)

(** [n.String()] for a [spec.NamespacedName]: the namespace, the
    separator ['/'] of [types.NamespacedName], and the name. *)
Definition NamespacedName_String (n : NamespacedName) : string :=
  Namespace n +:+ "/" +:+ Name n.

(** The key function that [New] hands to [cache.NewFIFO]:
    [fmt.Sprintf("%s-%s", e.PodName, e.ResourceVersion)]. *)
Definition podEventKey (e : PodEvent) : string :=
  NamespacedName_String (PodName e) +:+ "-" +:+ ResourceVersion e.

(** [cache.FIFO]: the queued keys, oldest first, and the object stored
    under each key. *)
Record FIFO : Type := {
  items : gmap string PodEvent;
  queue : list string;
}.

Definition NewFIFO : FIFO := {| items := ∅; queue := [] |}.

(** [f.Add(obj)]: a key that is already queued keeps its place and only
    its object is replaced. *)
Definition FIFO_Add (e : PodEvent) (f : FIFO) : FIFO :=
  let id := podEventKey e in
  {| queue := if bool_decide (is_Some (items f !! id)) then queue f
              else queue f ++ [id];
     items := <[id := e]> (items f) |}.

(** ** The cluster and its collaborators *)

(** [v1.ResourceStorage] *)
Definition ResourceStorage : string := "storage".

(** [spec.PostgresSpec], the part of it that [cluster.go] reads *)
Record PostgresSpec : Type := {
  TeamID : string;
  sp_Volume : Volume;
  PgVersion : string;
  Users : gmap string (list string);
  AllowedSourceRanges : option (list string);
}.

(** What the collaborators are asked to do, in the order of the calls. *)
Inductive Event : Type :=
| EvPatchStatus (status : PostgresStatus) (err : error)
| EvResizeVolume (volumeId : string) (newSize : Z) (err : error)
| EvExecCommand (podName : NamespacedName) (command : list string)
    (out : string) (err : error)
| EvUpdatePersistentVolume (pv : PersistentVolume) (err : error).

Section ClusterModel.
Context `{K8sTypes}.
(** The state of everything outside the [Cluster] struct: the
    Kubernetes API server, EC2, the pods, the database, the Teams
    API, the random number generator. *)
Context {W : Type}.

(** [Cluster]: the fields that [cluster.go] reads or writes, and the
    outside world that its clients reach. *)
Record Cluster : Type := {
  Status : PostgresStatus;
  Spec : PostgresSpec;
  c_Service : Service;
  c_Statefulset : StatefulSet;
  InfrastructureRoles : gmap string PgUser;
  SuperUsername : string;
  ReplicationUsername : string;
  PamRoleName : string;
  pgUsers : gmap string PgUser;
  systemUsers : gmap string PgUser;
  masterLess : bool;
  podEventsQueue : FIFO;
  world : W;
}.

Definition set_Status (s : PostgresStatus) (c : Cluster) : Cluster :=
  {| Status := s; Spec := Spec c; c_Service := c_Service c;
     c_Statefulset := c_Statefulset c;
     InfrastructureRoles := InfrastructureRoles c;
     SuperUsername := SuperUsername c;
     ReplicationUsername := ReplicationUsername c;
     PamRoleName := PamRoleName c; pgUsers := pgUsers c;
     systemUsers := systemUsers c; masterLess := masterLess c;
     podEventsQueue := podEventsQueue c; world := world c |}.
Definition set_pgUsers (m : gmap string PgUser) (c : Cluster) : Cluster :=
  {| Status := Status c; Spec := Spec c; c_Service := c_Service c;
     c_Statefulset := c_Statefulset c;
     InfrastructureRoles := InfrastructureRoles c;
     SuperUsername := SuperUsername c;
     ReplicationUsername := ReplicationUsername c;
     PamRoleName := PamRoleName c; pgUsers := m;
     systemUsers := systemUsers c; masterLess := masterLess c;
     podEventsQueue := podEventsQueue c; world := world c |}.
Definition set_systemUsers (m : gmap string PgUser) (c : Cluster) : Cluster :=
  {| Status := Status c; Spec := Spec c; c_Service := c_Service c;
     c_Statefulset := c_Statefulset c;
     InfrastructureRoles := InfrastructureRoles c;
     SuperUsername := SuperUsername c;
     ReplicationUsername := ReplicationUsername c;
     PamRoleName := PamRoleName c; pgUsers := pgUsers c;
     systemUsers := m; masterLess := masterLess c;
     podEventsQueue := podEventsQueue c; world := world c |}.
Definition set_podEventsQueue (q : FIFO) (c : Cluster) : Cluster :=
  {| Status := Status c; Spec := Spec c; c_Service := c_Service c;
     c_Statefulset := c_Statefulset c;
     InfrastructureRoles := InfrastructureRoles c;
     SuperUsername := SuperUsername c;
     ReplicationUsername := ReplicationUsername c;
     PamRoleName := PamRoleName c; pgUsers := pgUsers c;
     systemUsers := systemUsers c; masterLess := masterLess c;
     podEventsQueue := q; world := world c |}.
Definition set_world (w : W) (c : Cluster) : Cluster :=
  {| Status := Status c; Spec := Spec c; c_Service := c_Service c;
     c_Statefulset := c_Statefulset c;
     InfrastructureRoles := InfrastructureRoles c;
     SuperUsername := SuperUsername c;
     ReplicationUsername := ReplicationUsername c;
     PamRoleName := PamRoleName c; pgUsers := pgUsers c;
     systemUsers := systemUsers c; masterLess := masterLess c;
     podEventsQueue := podEventsQueue c; world := w |}.

(** What [cluster.go] calls and does not define: constants of package
    [constants], functions of the packages [util], [volumes] and
    [resource], the clients, and the methods of [Cluster] that other
    files of package [cluster] define.  A function that only talks to
    the outside takes the cluster and returns the new outside world; a
    method that also records what it made in the cluster returns the
    new cluster. *)
Class Collaborators : Type := {
  (* package constants *)
  PasswordLength : nat;
  SuperuserKeyName : string;
  ReplicationUserKeyName : string;
  RoleFlagLogin : string;
  RoleFlagSuperuser : string;
  DataVolumeName : string;
  (* the order in which [range] visits a map *)
  rangeOrder : ∀ V : Type, gmap string V → list (string * V);
  (* package util *)
  RandomPassword : nat → W → string * W;
  (* package resource *)
  ParseQuantity : string → Quantity * error;
  (* package volumes *)
  ConnectToEC2 : W → error * W;
  ResizeVolume : string → Z → W → error * W;
  (* the REST and Kubernetes clients *)
  patchStatus : PostgresStatus → W → error * W;
  updatePersistentVolume : PersistentVolume → W → error * W;
  (* package cluster, other files *)
  isValidUsername : string → bool;
  normalizeUserFlags : list string → list string * error;
  getTeamMembers : Cluster → (list string * error) * W;
  listPersistentVolumes : Cluster → (list PersistentVolume * error) * W;
  ExecCommand : NamespacedName → list string → Cluster → (string * error) * W;
  databaseAccessDisabled : Cluster → bool;
  genService : Cluster → option (list string) → Service;
  genStatefulSet : Cluster → PostgresSpec → StatefulSet * error;
  createEndpoint : Cluster → error * Cluster;
  createService : Cluster → error * Cluster;
  applySecrets : Cluster → error * Cluster;
  createStatefulSet : Cluster → error * Cluster;
  waitStatefulsetPodsReady : Cluster → error * Cluster;
  initDbConn : Cluster → error * Cluster;
  createUsers : Cluster → error * Cluster;
  ListResources : Cluster → error * Cluster;
  updateService : Service → Cluster → error * Cluster;
  updateStatefulSet : StatefulSet → Cluster → error * Cluster;
  replaceStatefulSet : StatefulSet → Cluster → error * Cluster;
  recreatePods : Cluster → error * Cluster;
}.

Context `{!Collaborators}.

(** *** Running a method: state, calls and panics *)

Record St : Type := {
  cl : Cluster;
  trace : list Event;
}.

Definition M (A : Type) : Type := St → res A * St.

#[global] Instance M_ret : MRet M := λ A a st, (Val a, st).
#[global] Instance M_bind : MBind M := λ A B f m st,
  match m st with
  | (Val a, st') => f a st'
  | (Panicked msg, st') => (Panicked msg, st')
  end.

Definition get : M Cluster := λ st, (Val (cl st), st).
Definition modify (f : Cluster → Cluster) : M unit :=
  λ st, (Val (), {| cl := f (cl st); trace := trace st |}).
Definition emit (ev : Event) : M unit :=
  λ st, (Val (), {| cl := cl st; trace := trace st ++ [ev] |}).
Definition liftRes {A} (r : res A) : M A := λ st, (r, st).
(** a call that changes the outside world only *)
Definition callW {A} (f : W → A * W) : M A :=
  λ st, let '(a, w) := f (world (cl st)) in
        (Val a, {| cl := set_world w (cl st); trace := trace st |}).
(** a call that reads the cluster and changes the outside world *)
Definition callR {A} (f : Cluster → A * W) : M A :=
  λ st, let '(a, w) := f (cl st) in
        (Val a, {| cl := set_world w (cl st); trace := trace st |}).
(** a method of the cluster *)
Definition call {A} (f : Cluster → A * Cluster) : M A :=
  λ st, let '(a, c) := f (cl st) in
        (Val a, {| cl := c; trace := trace st |}).

(** *** [setStatus]

    [json.Marshal] of a status string does not fail; whether the patch
    fails or not is only logged. *)
Definition setStatus (status : PostgresStatus) : M unit :=
  modify (set_Status status);;
  err ← callW (patchStatus status);
  emit (EvPatchStatus status err).

(** *** The role model *)

Definition randomPassword : M string :=
  callW (RandomPassword PasswordLength).

Definition initSystemUsers : M unit :=
  pw ← randomPassword;
  modify (λ c, set_systemUsers
    (<[SuperuserKeyName :=
         {| pg_Name := SuperUsername c; pg_Password := pw;
            pg_Flags := []; pg_MemberOf := [] |}]> (systemUsers c)) c);;
  pw ← randomPassword;
  modify (λ c, set_systemUsers
    (<[ReplicationUserKeyName :=
         {| pg_Name := ReplicationUsername c; pg_Password := pw;
            pg_Flags := []; pg_MemberOf := [] |}]> (systemUsers c)) c).

(** The body of [initRobotUsers], over the entries of [c.Spec.Users]
    in the order [range] yields them. *)
Fixpoint initRobotUsers_range (todo : list (string * list string)) : M error :=
  match todo with
  | [] => mret None
  | (username, userFlags) :: todo' =>
      if negb (isValidUsername username) then
        mret (Some ("invalid username: '" +:+ username +:+ "'"))
      else
        let '(flags, err) := normalizeUserFlags userFlags in
        if err is Some e then
          mret (Some ("invalid flags for user '" +:+ username +:+ "': " +:+ e))
        else
          pw ← randomPassword;
          modify (λ c, set_pgUsers
            (<[username := {| pg_Name := username; pg_Password := pw;
                              pg_Flags := flags; pg_MemberOf := [] |}]>
               (pgUsers c)) c);;
          initRobotUsers_range todo'
  end.

Definition initRobotUsers : M error :=
  c ← get;
  initRobotUsers_range (rangeOrder _ (Users (Spec c))).

Fixpoint initHumanUsers_range (teamMembers : list string) : M unit :=
  match teamMembers with
  | [] => mret ()
  | username :: teamMembers' =>
      let flags := [RoleFlagLogin; RoleFlagSuperuser] in
      modify (λ c, set_pgUsers
        (<[username := {| pg_Name := username; pg_Password := "";
                          pg_Flags := flags;
                          pg_MemberOf := [PamRoleName c] |}]>
           (pgUsers c)) c);;
      initHumanUsers_range teamMembers'
  end.

Definition initHumanUsers : M error :=
  '(teamMembers, err) ← callR getTeamMembers;
  if err is Some e then
    mret (Some ("could not get list of team members: " +:+ e))
  else
    initHumanUsers_range teamMembers;;
    mret None.

(** The body of [initInfrastructureRoles], over the entries of
    [c.InfrastructureRoles] in the order [range] yields them. *)
Fixpoint initInfrastructureRoles_range (todo : list (string * PgUser)) : M error :=
  match todo with
  | [] => mret None
  | (username, data) :: todo' =>
      if negb (isValidUsername username) then
        mret (Some ("invalid username: '" +:+ username +:+ "'"))
      else
        let '(flags, err) := normalizeUserFlags (pg_Flags data) in
        if err is Some e then
          mret (Some ("invalid flags for user '" +:+ username +:+ "': " +:+ e))
        else
          let data := {| pg_Name := pg_Name data; pg_Password := pg_Password data;
                         pg_Flags := flags; pg_MemberOf := pg_MemberOf data |} in
          modify (λ c, set_pgUsers (<[username := data]> (pgUsers c)) c);;
          initInfrastructureRoles_range todo'
  end.

Definition initInfrastructureRoles : M error :=
  c ← get;
  initInfrastructureRoles_range (rangeOrder _ (InfrastructureRoles c)).

Definition initUsers : M error :=
  initSystemUsers;;
  err ← initInfrastructureRoles;
  if err is Some e then
    mret (Some ("could not init infrastructure roles: " +:+ e))
  else
  err ← initRobotUsers;
  if err is Some e then
    mret (Some ("could not init robot users: " +:+ e))
  else
  err ← initHumanUsers;
  if err is Some e then
    mret (Some ("could not init human users: " +:+ e))
  else
  mret None.

(** *** Volumes *)

(** [getPodNameFromPersistentVolume(pv)] *)
Definition getPodNameFromPersistentVolume (pv : PersistentVolume)
    : res NamespacedName :=
  ref ← deref (pv_ClaimRef pv);
  let namespace := Namespace ref in
  let n := (String.length DataVolumeName + 1)%nat in
  if bool_decide (String.length (Name ref) < n)%nat then
    Panicked "slice bounds out of range"
  else
    mret {| Namespace := namespace; Name := GoStrings.drop n (Name ref) |}.

(** [getAWSVolumeId(pv)] *)
Definition getAWSVolumeId (pv : PersistentVolume) : res (string * error) :=
  id ← deref (pv_AWSElasticBlockStore pv);
  if bool_decide (id = "") then
    mret ("", Some ("volume id is empty for volume " +:+ pv_Name pv))
  else
    let idx := GoStrings.LastIndex id "/vol-" + 1 in
    if bool_decide (idx = 0) then
      mret ("", Some ("malfored EBS volume id " +:+ id))
    else
      mret (GoStrings.drop (Z.to_nat idx) id, None).

Definition resize2fs : list string :=
  ["bash"; "-c";
   "df -h /home/postgres/pgdata --output=source|tail -1|xargs resize2fs 2>&1"].

(** The condition under which [resizeVolumeFS] takes the output of
    [resize2fs] for a success. *)
Definition resize2fsSucceeded (out : string) : bool :=
  GoStrings.Contains out "Nothing to do"
  || (GoStrings.Contains out "on-line resizing required"
      && Regexp.MatchString Regexp.ext2fsSuccessRegexp out).

(** [c.resizeVolumeFS(podName)] *)
Definition resizeVolumeFS (podName : NamespacedName) : M error :=
  '(out, err) ← callR (ExecCommand podName resize2fs);
  emit (EvExecCommand podName resize2fs out err);;
  if err is Some _ then
    mret err
  else
  if resize2fsSucceeded out then
    mret None
  else
    mret (Some ("unrecognized output: " +:+ out +:+ ", assuming error")).

(** [x / 1073741824] on [int64]: the quotient is truncated. *)
Definition GiB (x : Z) : Z := Z.quot x 1073741824.

(** [pv.Spec.Capacity[v1.ResourceStorage]] *)
Definition capacityOf (pv : PersistentVolume) : Quantity :=
  quantityAt (default ∅ (pv_Capacity pv)) ResourceStorage.

(** [pv.Spec.Capacity[v1.ResourceStorage] = q] *)
Definition setCapacity (q : Quantity) (pv : PersistentVolume)
    : res PersistentVolume :=
  match pv_Capacity pv with
  | None => Panicked "assignment to entry in nil map"
  | Some m =>
      mret {| pv_Name := pv_Name pv;
              pv_Capacity := Some (<[ResourceStorage := q]> m);
              pv_ClaimRef := pv_ClaimRef pv;
              pv_AWSElasticBlockStore := pv_AWSElasticBlockStore pv |}
  end.

(** One round of the loop of [updateVolumes].  It returns the error
    with which [updateVolumes] returns from inside the loop ([None]:
    the loop goes on) and the object [pv] points to after the round. *)
Definition updateVolume (newQuantity : Quantity) (newSize : Z)
    (pv : PersistentVolume) : M (error * PersistentVolume) :=
  let cap := capacityOf pv in
  if bool_decide (GiB (Quantity_ScaledValue0 cap) ≠ newSize) then
    '(awsVolumeId, err) ← liftRes (getAWSVolumeId pv);
    if err is Some _ then
      mret (err, pv)
    else
    err ← callW (ResizeVolume awsVolumeId newSize);
    emit (EvResizeVolume awsVolumeId newSize err);;
    if err is Some e then
      mret (Some ("could not resize EBS volume " +:+ awsVolumeId +:+ ": " +:+ e), pv)
    else
    podName ← liftRes (getPodNameFromPersistentVolume pv);
    err ← resizeVolumeFS podName;
    if err is Some e then
      mret (Some ("could not resize the filesystem on pod '"
                  +:+ NamespacedName_String podName +:+ "': " +:+ e), pv)
    else
    pv ← liftRes (setCapacity newQuantity pv);
    err ← callW (updatePersistentVolume pv);
    emit (EvUpdatePersistentVolume pv err);;
    if err is Some e then
      mret (Some ("could not update persistent volume: " +:+ e), pv)
    else
      mret (None, pv)
  else
    mret (None, pv).

(** [for _, pv := range pvs]: the error returned and the objects the
    elements of [pvs] point to afterwards. *)
Fixpoint updateVolumes_range (newQuantity : Quantity) (newSize : Z)
    (pvs : list PersistentVolume) : M (error * list PersistentVolume) :=
  match pvs with
  | [] => mret (None, [])
  | pv :: pvs' =>
      '(err, pv') ← updateVolume newQuantity newSize pv;
      if err is Some _ then
        mret (err, pv' :: pvs')
      else
        '(err, pvs'') ← updateVolumes_range newQuantity newSize pvs';
        mret (err, pv' :: pvs'')
  end.

(** [c.updateVolumes(newVolume)]; the error of [ParseQuantity] is
    overwritten before it is read. *)
Definition updateVolumes (newVolume : Volume) : M error :=
  let '(newQuantity, _) := ParseQuantity (Size newVolume) in
  let newSize := GiB (Quantity_ScaledValue0 newQuantity) in
  '(pvs, err) ← callR listPersistentVolumes;
  if err is Some e then
    mret (Some ("could not list persistent volumes: " +:+ e))
  else
  err ← callW ConnectToEC2;
  if err is Some _ then
    mret (Some "could not connect to EC2")
  else
  '(err, _) ← updateVolumes_range newQuantity newSize pvs;
  mret err.

(** *** The lifecycle operations

    The mutex [c.mu] serialises the calls; one call is modelled at a
    time. *)

(** The statements of [Create] after its [defer]s.  The result is the
    value that [Create] returns, paired with the value that the
    variable [err], declared at the top of the function, holds at that
    return: the deferred function reads this variable.  [x, err := f()]
    at the level of the function body assigns to it; [if err := f()]
    declares a new [err] that is gone after the [if]. *)
Definition Create_body : M (error * error) :=
  setStatus ClusterStatusCreating;;
  err ← call createEndpoint;
  if err is Some e then
    mret (Some ("could not create endpoint: " +:+ e), err)
  else
  err ← call createService;
  if err is Some e then
    mret (Some ("could not create service: " +:+ e), err)
  else
  err ← initUsers;
  if err is Some _ then
    mret (err, err)
  else
  err ← call applySecrets;
  if err is Some e then
    mret (Some ("could not create secrets: " +:+ e), err)
  else
  err ← call createStatefulSet;
  if err is Some e then
    mret (Some ("could not create statefulset: " +:+ e), err)
  else
  err ← call waitStatefulsetPodsReady;
  if err is Some _ then
    mret (err, err)
  else
  let finish : M (error * error) :=
    err ← call ListResources;
    mret (None, err) in
  c ← get;
  if negb (masterLess c || databaseAccessDisabled c) then
    err' ← call initDbConn;
    if err' is Some e then
      mret (Some ("could not init db connection: " +:+ e), err)
    else
    err ← call createUsers;
    if err is Some e then
      mret (Some ("could not create users: " +:+ e), err)
    else
      finish
  else
    finish.

(** [c.Create()]: the body, then the deferred function.  Nothing in
    the body panics (lemma [Create_returns]), so the deferred function
    always runs after a return. *)
Definition Create : M error :=
  '(r, err) ← Create_body;
  (if err is None
   then setStatus ClusterStatusRunning
   else setStatus ClusterStatusAddFailed);;
  mret r.

(** [c.Update(newSpec)] *)
Definition Update (newSpec : PostgresSpec) : M error :=
  setStatus ClusterStatusUpdating;;
  c ← get;
  let newService := genService c (AllowedSourceRanges newSpec) in
  err ←
    (if negb (sameServiceWith (c_Service c) newService).1 then
       err ← call (updateService newService);
       if err is Some e then
         setStatus ClusterStatusUpdateFailed;;
         mret (Some ("could not update service: " +:+ e))
       else mret None
     else mret None);
  if err is Some _ then mret err else
  c ← get;
  err ←
    (if negb (sameVolumeWith (sp_Volume (Spec c)) (sp_Volume newSpec)).1 then
       err ← updateVolumes (sp_Volume newSpec);
       if err is Some e then
         mret (Some ("Could not update volumes: " +:+ e))
       else mret None
     else mret None);
  if err is Some _ then mret err else
  c ← get;
  let '(newStatefulSet, err) := genStatefulSet c newSpec in
  if err is Some e then
    mret (Some ("could not generate statefulset: " +:+ e))
  else
  cmp ← liftRes (compareStatefulSetWith (c_Statefulset c) newStatefulSet);
  err ←
    (if negb (match_ cmp) then
       if negb (replace cmp) then
         err ← call (updateStatefulSet newStatefulSet);
         if err is Some e then
           setStatus ClusterStatusUpdateFailed;;
           mret (Some ("could not upate statefulset: " +:+ e))
         else mret None
       else
         err ← call (replaceStatefulSet newStatefulSet);
         if err is Some e then
           setStatus ClusterStatusUpdateFailed;;
           mret (Some ("could not replace statefulset: " +:+ e))
         else mret None
     else mret None);
  if err is Some _ then mret err else
  err ←
    (if rollingUpdate cmp then
       err ← call recreatePods;
       if err is Some e then
         setStatus ClusterStatusUpdateFailed;;
         mret (Some ("could not recreate pods: " +:+ e))
       else mret None
     else mret None);
  if err is Some _ then mret err else
  setStatus ClusterStatusRunning;;
  mret None.

(** [c.ReceivePodEvent(event)] *)
Definition ReceivePodEvent (event : PodEvent) : M unit :=
  modify (λ c, set_podEventsQueue (FIFO_Add event (podEventsQueue c)) c).

(** *** What the properties below speak of *)

(** [m] returns: it does not panic, whatever the state. *)
Definition returns {A} (m : M A) : Prop :=
  ∀ st, ∃ a st', m st = (Val a, st').

(** The outputs of [resize2fs] that count as a success. *)
Definition recognised (out : string) : Prop :=
  (∃ pre suf, out = pre +:+ "Nothing to do" +:+ suf)
  ∨ ((∃ pre suf, out = pre +:+ "on-line resizing required" +:+ suf)
     ∧ ∃ pre line suf,
         out = pre +:+ line +:+ suf ∧ Regexp.ext2fsSuccessLine line).


End ClusterModel.

(** ** A world for the examples

    A small world in which the collaborators are scripted: a call fails
    when its name is listed in [failing]. *)

Module Examples.

Definition exampleTypes : K8sTypes :=
  {| ContainerPort := Z;
     EnvVar := string * string;
     PersistentVolumeClaimSpec := string |}.

#[local] Existing Instance exampleTypes.

Record World : Type := {
  failing : list string;
  drawn : nat;
  resize2fsOutput : string;
  volumes : list PersistentVolume;
}.

Definition fails (name : string) (w : World) : error :=
  if bool_decide (name ∈ failing w) then Some (name +:+ " failed") else None.

(** Reads a number and one of the suffixes "", "Ki", "Mi", "Gi". *)
Fixpoint parseNumber (s : string) (acc : Z) : option Z :=
  match s with
  | "" => Some acc
  | String a s' =>
      if Regexp.digit a
      then parseNumber s' (10 * acc + Z.of_N (N_of_ascii a) - 48)
      else if bool_decide (s = "Ki") then Some (acc * 1024)
      else if bool_decide (s = "Mi") then Some (acc * 1048576)
      else if bool_decide (s = "Gi") then Some (acc * 1073741824)
      else None
  end.

Definition exampleParseQuantity (s : string) : Quantity * error :=
  match parseNumber s 0 with
  | Some n => (Q2Qc (inject_Z n), None)
  | None => (0%Qc, Some "quantities must match the regular expression")
  end.

(** A stand-in for [isValidUsername], which another file of package
    [cluster] defines: a letter followed by letters and digits, the
    pattern [alphaNumericRegexp]. *)
Definition exampleIsValidUsername (username : string) : bool :=
  Regexp.MatchStringAnchored Regexp.alphaNumericRegexp username.

Definition exampleStep (name : string)
    (c : Cluster (H := exampleTypes) (W := World))
    : error * Cluster (H := exampleTypes) (W := World) :=
  (fails name (world c), c).

Definition exampleStatefulSet : StatefulSet (H := exampleTypes) :=
  {| Spec_Replicas := Some 2;
     Template_Labels := Some {[ "application" := "spilo" ]};
     Template_Annotations := None;
     Template_ServiceAccountName := "operator";
     Template_TerminationGracePeriodSeconds := Some 30;
     Template_Containers :=
       [ {| Image := "spilo:1.0";
            Ports := Some [5432; 8008];
            Resources := {| Limits := {[ "cpu" := 1%Qc ]}; Requests := ∅ |};
            Env := Some [("PGVERSION", "9.6")] |} ];
     Spec_VolumeClaimTemplates :=
       [ {| pvc_Name := "pgdata"; pvc_Annotations := None; pvc_Spec := "10Gi" |} ] |}.

Definition exampleCollaborators
    : Collaborators (H := exampleTypes) (W := World) :=
  {| PasswordLength := 64;
     SuperuserKeyName := "superuser";
     ReplicationUserKeyName := "replication";
     RoleFlagLogin := "LOGIN";
     RoleFlagSuperuser := "SUPERUSER";
     DataVolumeName := "pgdata";
     rangeOrder := λ V m, map_to_list m;
     RandomPassword := λ _ w,
       ("password" +:+ pretty (drawn w),
        {| failing := failing w; drawn := S (drawn w);
           resize2fsOutput := resize2fsOutput w; volumes := volumes w |});
     ParseQuantity := exampleParseQuantity;
     ConnectToEC2 := λ w, (fails "ConnectToEC2" w, w);
     ResizeVolume := λ _ _ w, (fails "ResizeVolume" w, w);
     patchStatus := λ _ w, (fails "patchStatus" w, w);
     updatePersistentVolume := λ _ w, (fails "updatePersistentVolume" w, w);
     isValidUsername := exampleIsValidUsername;
     normalizeUserFlags := λ flags, (flags, None);
     getTeamMembers := λ c,
       ((if bool_decide (TeamID (Spec c) = "acid") then ["alice"; "bob"] else [],
         None), world c);
     listPersistentVolumes := λ c,
       ((volumes (world c), fails "listPersistentVolumes" (world c)), world c);
     ExecCommand := λ _ _ c,
       ((resize2fsOutput (world c), fails "ExecCommand" (world c)), world c);
     databaseAccessDisabled := λ _, false;
     genService := λ _ ranges, {| LoadBalancerSourceRanges := ranges |};
     genStatefulSet := λ c _, (exampleStatefulSet, fails "genStatefulSet" (world c));
     createEndpoint := exampleStep "createEndpoint";
     createService := exampleStep "createService";
     applySecrets := exampleStep "applySecrets";
     createStatefulSet := exampleStep "createStatefulSet";
     waitStatefulsetPodsReady := exampleStep "waitStatefulsetPodsReady";
     initDbConn := exampleStep "initDbConn";
     createUsers := exampleStep "createUsers";
     ListResources := exampleStep "ListResources";
     updateService := λ _, exampleStep "updateService";
     updateStatefulSet := λ _, exampleStep "updateStatefulSet";
     replaceStatefulSet := λ _, exampleStep "replaceStatefulSet";
     recreatePods := exampleStep "recreatePods" |}.

Definition exampleVolume (name : string) (size : Z) : PersistentVolume :=
  {| pv_Name := name;
     pv_Capacity := Some {[ ResourceStorage := Q2Qc (inject_Z (size * 1073741824)) ]};
     pv_ClaimRef := Some {| Namespace := "default"; Name := "pgdata-" +:+ name |};
     pv_AWSElasticBlockStore := Some ("aws://eu-central-1b/vol-" +:+ name) |}.

Definition resize2fsGrown : string :=
  "resize2fs 1.42.13 (17-May-2015)
Filesystem at /dev/xvdb is mounted on /home/postgres/pgdata; on-line resizing required
old_desc_blocks = 1, new_desc_blocks = 2
The filesystem on /dev/xvdb is now 5242880 (4k) blocks long.
".

Definition exampleWorld (failing : list string) : World :=
  {| failing := failing; drawn := 0; resize2fsOutput := resize2fsGrown;
     volumes := [exampleVolume "acid-test-0" 10; exampleVolume "acid-test-1" 20] |}.

Definition infrastructureRole : PgUser :=
  {| pg_Name := "zalando"; pg_Password := "from-the-operator";
     pg_Flags := ["SUPERUSER"]; pg_MemberOf := ["admins"] |}.

Definition exampleSpec : PostgresSpec :=
  {| TeamID := "nobody";
     sp_Volume := {| Size := "10Gi"; StorageClass := "gp2" |};
     PgVersion := "9.6";
     Users := {[ "zalando" := ["CREATEDB"] ]};
     AllowedSourceRanges := None |}.

Definition exampleCluster (failing : list string)
    : Cluster (H := exampleTypes) (W := World) :=
  {| Status := ClusterStatusUnknown;
     Spec := exampleSpec;
     c_Service := {| LoadBalancerSourceRanges := None |};
     c_Statefulset := exampleStatefulSet;
     InfrastructureRoles := {[ "zalando" := infrastructureRole ]};
     SuperUsername := "postgres";
     ReplicationUsername := "standby";
     PamRoleName := "zalandos";
     pgUsers := ∅;
     systemUsers := ∅;
     masterLess := false;
     podEventsQueue := NewFIFO;
     world := exampleWorld failing |}.

Definition exampleState (failing : list string)
    : St (H := exampleTypes) (W := World) :=
  {| cl := exampleCluster failing; trace := [] |}.

(** The desired object of the examples: the live one, scaled to three
    replicas. *)
Definition scaledStatefulSet : StatefulSet :=
  {| Spec_Replicas := Some 3;
     Template_Labels := Template_Labels exampleStatefulSet;
     Template_Annotations := Template_Annotations exampleStatefulSet;
     Template_ServiceAccountName := Template_ServiceAccountName exampleStatefulSet;
     Template_TerminationGracePeriodSeconds :=
       Template_TerminationGracePeriodSeconds exampleStatefulSet;
     Template_Containers := Template_Containers exampleStatefulSet;
     Spec_VolumeClaimTemplates := Spec_VolumeClaimTemplates exampleStatefulSet |}.

(** A live object that lost its containers. *)
Definition emptyStatefulSet : StatefulSet :=
  {| Spec_Replicas := Some 2;
     Template_Labels := None;
     Template_Annotations := None;
     Template_ServiceAccountName := "default";
     Template_TerminationGracePeriodSeconds := None;
     Template_Containers := [];
     Spec_VolumeClaimTemplates := [] |}.

Definition spilo : Container :=
  {| Image := "spilo:1.0";
     Ports := Some [5432; 8008];
     Resources := {| Limits := {[ "cpu" := 1%Qc ]}; Requests := ∅ |};
     Env := Some [("PGVERSION", "9.6")] |}.

(** [spilo] with another image. *)
Definition spiloUpgraded : Container :=
  {| Image := "spilo:1.1";
     Ports := Ports spilo;
     Resources := Resources spilo;
     Env := Env spilo |}.

(** [spilo] with another CPU limit. *)
Definition spiloTwoCPUs : Container :=
  {| Image := Image spilo;
     Ports := Ports spilo;
     Resources := {| Limits := {[ "cpu" := 2%Qc ]}; Requests := ∅ |};
     Env := Env spilo |}.

(** The manifest of the examples with a volume of 20Gi. *)
Definition grownSpec : PostgresSpec :=
  {| TeamID := TeamID exampleSpec;
     sp_Volume := {| Size := "20Gi"; StorageClass := "gp2" |};
     PgVersion := PgVersion exampleSpec;
     Users := Users exampleSpec;
     AllowedSourceRanges := AllowedSourceRanges exampleSpec |}.

Definition examplePod : NamespacedName :=
  {| Namespace := "default"; Name := "acid-test-0" |}.

End Examples.

(** ** Further notions for the properties *)

(** The queue holds the keys of the stored events, each once. *)
Definition FIFO_wf (f : FIFO) : Prop :=
  NoDup (queue f) ∧ ∀ k, k ∈ queue f ↔ is_Some (items f !! k).

(** A result without reasons is a result without findings. *)
Definition quiet (v : cmpVars) : Prop :=
  v_reasons v = [] ↔
  v_match v = true ∧ needsRollUpdate v = false ∧ needsReplace v = false.


(** [m] returns without recording a call, whatever the state. *)
Definition silent `{K8sTypes} {W A : Type} (m : M (W := W) A) : Prop :=
  ∀ st, ∃ a st', m st = (Val a, st') ∧ trace st' = trace st.

(** [m] returns, records no call, and changes nothing of the cluster
    but [pgUsers] and the outside world. *)
Definition users_only `{K8sTypes} {W A : Type} (m : M (W := W) A) : Prop :=
  ∀ st, ∃ a st',
    m st = (Val a, st') ∧ trace st' = trace st
    ∧ ∃ pg w, cl st' = set_pgUsers pg (set_world w (cl st)).


(** The role under which an infrastructure role is stored. *)
Definition infrastructureRoleStored `{K8sTypes} {W : Type}
    `{!Collaborators (W := W)} (data : PgUser) : PgUser :=
  {| pg_Name := pg_Name data; pg_Password := pg_Password data;
     pg_Flags := (normalizeUserFlags (pg_Flags data)).1;
     pg_MemberOf := pg_MemberOf data |}.

(** The role of a member of the team. *)
Definition humanRole `{K8sTypes} {W : Type} `{!Collaborators (W := W)}
    (username pamRoleName : string) : PgUser :=
  {| pg_Name := username; pg_Password := "";
     pg_Flags := [RoleFlagLogin; RoleFlagSuperuser];
     pg_MemberOf := [pamRoleName] |}.

(** The calls of a round of [updateVolumes] that resized the volume
    [pv]: all three, each without an error, the last one with the
    volume at its new capacity. *)
Definition resized `{K8sTypes} {W : Type} `{!Collaborators (W := W)}
    (newQuantity : Quantity) (newSize : Z) (pv : PersistentVolume)
    (seg : list Event) : Prop :=
  ∃ id pod out pv',
    getAWSVolumeId pv = Val (id, None)
    ∧ getPodNameFromPersistentVolume pv = Val pod
    ∧ resize2fsSucceeded out = true
    ∧ setCapacity newQuantity pv = Val pv'
    ∧ capacityOf pv' = newQuantity
    ∧ seg = [EvResizeVolume id newSize None;
             EvExecCommand pod resize2fs out None;
             EvUpdatePersistentVolume pv' None].

(** What a run of [updateVolumes] that returned [nil] asked of one
    volume of the list. *)
Definition volume_done `{K8sTypes} {W : Type} `{!Collaborators (W := W)}
    (newQuantity : Quantity) (newSize : Z) (pv : PersistentVolume)
    (seg : list Event) : Prop :=
  (GiB (Quantity_ScaledValue0 (capacityOf pv)) = newSize → seg = [])
  ∧ (GiB (Quantity_ScaledValue0 (capacityOf pv)) ≠ newSize →
     resized newQuantity newSize pv seg).

(** A program that, when it returns [nil], has just set the status
    [Running]. *)
Definition ends_Running `{K8sTypes} {W : Type} `{!Collaborators (W := W)}
    (m : M (W := W) error) : Prop :=
  ∀ st st', m st = (Val None, st') →
    Status (cl st') = ClusterStatusRunning
    ∧ ∃ e, last (trace st') = Some (EvPatchStatus ClusterStatusRunning e).

(** Whenever [m] returns, [Q] holds of the value and the state it
    returns with. *)
Definition post `{K8sTypes} {W A : Type} (m : M (W := W) A)
    (Q : A → St (W := W) → Prop) : Prop :=
  ∀ st a st', m st = (Val a, st') → Q a st'.

(** The errors of [Create] and of [Update] after which the status is
    not the failure status. *)
Definition dbConnectionError (e : string) : Prop :=
  ∃ e', e = "could not init db connection: " +:+ e'.

Definition volumesOrGenerateError (e : string) : Prop :=
  (∃ e', e = "Could not update volumes: " +:+ e')
  ∨ (∃ e', e = "could not generate statefulset: " +:+ e').

(** What [Create] returns and what its variable [err] holds then: an
    error is returned with [err] set, or it is the error of the database
    connection. *)
Definition body_ok `{K8sTypes} {W : Type} (p : error * error)
    (st : St (W := W)) : Prop :=
  ∀ e, p.1 = Some e → is_Some p.2 ∨ dbConnectionError e.

(** The errors of [Update] and the status they leave. *)
Definition update_ok `{K8sTypes} {W : Type} (r : error)
    (st : St (W := W)) : Prop :=
  ∀ e, r = Some e →
       Status (cl st) = ClusterStatusUpdateFailed ∨ volumesOrGenerateError e.

(** ** Further examples *)

Module MoreExamples.
Import Examples.

#[local] Existing Instance exampleTypes.
#[local] Existing Instance exampleCollaborators.

(** One CPU requested, two as the limit. *)
Definition oneCPU : ResourceRequirements :=
  {| Limits := {[ "cpu" := 2%Qc ]}; Requests := {[ "cpu" := 1%Qc ]} |}.

(** [oneCPU], with an entry for no memory among the requests. *)
Definition oneCPUNoMemory : ResourceRequirements :=
  {| Limits := {[ "cpu" := 2%Qc ]};
     Requests := <[ "memory" := 0%Qc ]> {[ "cpu" := 1%Qc ]} |}.

(** The live object of the examples with an annotation on its pods. *)
Definition annotatedStatefulSet : StatefulSet :=
  {| Spec_Replicas := Spec_Replicas exampleStatefulSet;
     Template_Labels := Template_Labels exampleStatefulSet;
     Template_Annotations := Some {[ "iam.amazonaws.com/role" := "postgres" ]};
     Template_ServiceAccountName := Template_ServiceAccountName exampleStatefulSet;
     Template_TerminationGracePeriodSeconds :=
       Template_TerminationGracePeriodSeconds exampleStatefulSet;
     Template_Containers := Template_Containers exampleStatefulSet;
     Spec_VolumeClaimTemplates := Spec_VolumeClaimTemplates exampleStatefulSet |}.

(** The pod of the examples was added, and then deleted, at one
    resource version. *)
Definition podAdded : PodEvent :=
  {| ClusterName := {| Namespace := "default"; Name := "acid-test" |};
     PodName := examplePod; ResourceVersion := "4711";
     EventType_ := EventAdd |}.

Definition podDeleted : PodEvent :=
  {| ClusterName := {| Namespace := "default"; Name := "acid-test" |};
     PodName := examplePod; ResourceVersion := "4711";
     EventType_ := EventDelete |}.

(** The manifest of the examples, owned by the team "acid", whose
    members are "alice" and "bob". *)
Definition acidSpec : PostgresSpec :=
  {| TeamID := "acid";
     sp_Volume := sp_Volume exampleSpec;
     PgVersion := PgVersion exampleSpec;
     Users := {[ "alice" := ["CREATEDB"] ]};
     AllowedSourceRanges := AllowedSourceRanges exampleSpec |}.

Definition acidState : St (H := exampleTypes) (W := World) :=
  {| cl :=
       {| Status := ClusterStatusUnknown;
          Spec := acidSpec;
          c_Service := c_Service (exampleCluster []);
          c_Statefulset := c_Statefulset (exampleCluster []);
          InfrastructureRoles := InfrastructureRoles (exampleCluster []);
          SuperUsername := "postgres";
          ReplicationUsername := "standby";
          PamRoleName := "zalandos";
          pgUsers := ∅;
          systemUsers := ∅;
          masterLess := false;
          podEventsQueue := NewFIFO;
          world := exampleWorld [] |};
     trace := [] |}.

(** The cluster of the examples once both of its volumes have 20Gi. *)
Definition settledState : St (H := exampleTypes) (W := World) :=
  {| cl :=
       set_world
         {| failing := []; drawn := 0; resize2fsOutput := resize2fsGrown;
            volumes := [exampleVolume "acid-test-0" 20;
                        exampleVolume "acid-test-1" 20] |}
         (exampleCluster []);
     trace := [] |}.

(** The manifest of the examples, opened to one network. *)
Definition openedSpec : PostgresSpec :=
  {| TeamID := TeamID exampleSpec;
     sp_Volume := sp_Volume exampleSpec;
     PgVersion := PgVersion exampleSpec;
     Users := Users exampleSpec;
     AllowedSourceRanges := Some ["10.0.0.0/8"] |}.

End MoreExamples.

(** * Properties *)

(** ** Go strings *)

Module GoStringsFacts.
Import GoStrings.

Lemma app_cons a (s t : string) : String a s +:+ t = String a (s +:+ t).
Proof. reflexivity. Qed.

Lemma app_nil_l (s : string) : "" +:+ s = s.
Proof. reflexivity. Qed.

Lemma app_nil_r (s : string) : s +:+ "" = s.
Proof. induction s as [|a s IH]; [done|]. by rewrite app_cons, IH. Qed.

Lemma app_assoc (s t u : string) : (s +:+ t) +:+ u = s +:+ t +:+ u.
Proof. induction s as [|a s IH]; [done|]. by rewrite !app_cons, IH. Qed.

Lemma app_eq_nil (s t : string) : s +:+ t = "" → s = "" ∧ t = "".
Proof. destruct s; [done|]. rewrite app_cons. discriminate. Qed.

Lemma HasPrefix_spec s p : HasPrefix s p = true ↔ ∃ t, s = p +:+ t.
Proof.
  revert s. induction p as [|a p IH]; intros s; simpl.
  - split; [intros _; by exists s|done].
  - destruct s as [|b s].
    + split; [done|]. intros [t Ht]. by rewrite app_cons in Ht.
    + rewrite andb_true_iff, bool_decide_eq_true, IH. split.
      * intros [-> [t ->]]. by exists t.
      * intros [t Ht]. rewrite app_cons in Ht. injection Ht as -> ->. eauto.
Qed.

Lemma Contains_spec s sub :
  Contains s sub = true ↔ ∃ pre suf, s = pre +:+ sub +:+ suf.
Proof.
  induction s as [|a s IH]; simpl; rewrite orb_true_iff, HasPrefix_spec.
  - split.
    + intros [[t Ht]|?]; [|done]. by exists "", t.
    + intros (pre & suf & H). left. symmetry in H.
      apply app_eq_nil in H as [-> H]. exists suf. by rewrite H.
  - rewrite IH. split.
    + intros [[t Ht]|(pre & suf & ->)].
      * by exists "", t.
      * by exists (String a pre), suf.
    + intros (pre & suf & H). destruct pre as [|b pre].
      * left. by exists suf.
      * right. rewrite app_cons in H. injection H as _ ->. eauto.
Qed.

End GoStringsFacts.

(** ** Regular expressions *)

Module RegexpFacts.
Import GoStrings GoStringsFacts Regexp.

(** *** Correctness of the matcher *)

Lemma nullable_spec r : nullable r = true ↔ Matches r "".
Proof.
  induction r as [| |p|r1 IH1 r2 IH2|r1 IH1 r2 IH2|r IH]; simpl.
  - split; [done|]. inversion 1.
  - split; [constructor|done].
  - split; [done|]. inversion 1.
  - rewrite andb_true_iff, IH1, IH2. split.
    + intros [H1 H2]. apply (MCat _ _ "" "" H1 H2).
    + inversion 1 as [| |? ? s1 s2 H1 H2 E1 E2| | | |]; subst.
      apply app_eq_nil in E2 as [-> ->]. done.
  - rewrite orb_true_iff, IH1, IH2. split.
    + intros [?|?]; [by apply MAltL|by apply MAltR].
    + inversion 1; subst; auto.
  - split; [constructor|done].
Qed.

Lemma Matches_cons_inv r b s :
  Matches r (String b s) → Matches (deriv b r) s.
Proof.
  intros H. remember (String b s) as t eqn:Et.
  revert b s Et. induction H as
    [|p a Hp|r1 r2 s1 s2 H1 IH1 H2 IH2|r1 r2 t H IH|r1 r2 t H IH
     |r|r s1 s2 H1 IH1 H2 IH2]; intros b s Et; simpl.
  - done.
  - injection Et as -> <-. rewrite Hp. constructor.
  - destruct s1 as [|c s1].
    + rewrite app_nil_l in Et. subst s2.
      apply nullable_spec in H1. rewrite H1. apply MAltR. by apply IH2.
    + rewrite app_cons in Et. injection Et as -> <-.
      assert (Matches (Cat (deriv b r1) r2) (s1 +:+ s2)) as HC.
      { apply MCat; [by apply IH1|done]. }
      destruct (nullable r1); [by apply MAltL|done].
  - apply MAltL. by apply IH.
  - apply MAltR. by apply IH.
  - done.
  - destruct s1 as [|c s1].
    + rewrite app_nil_l in Et. by apply IH2.
    + rewrite app_cons in Et. injection Et as -> <-.
      apply MCat; [by apply IH1|done].
Qed.

Lemma Matches_deriv r b s :
  Matches (deriv b r) s → Matches r (String b s).
Proof.
  revert s. induction r as [| |p|r1 IH1 r2 IH2|r1 IH1 r2 IH2|r IH];
    intros s; simpl.
  - inversion 1.
  - inversion 1.
  - destruct (p b) eqn:Hp; inversion 1; subst. by constructor.
  - assert (∀ t, Matches (Cat (deriv b r1) r2) t →
                 Matches (Cat r1 r2) (String b t)) as HC.
    { inversion 1 as [| |? ? s1 s2 H1 H2| | | |]; subst.
      rewrite <-app_cons. apply MCat; [by apply IH1|done]. }
    destruct (nullable r1) eqn:Hn; [|by apply HC].
    inversion 1 as [| | |? ? ? H'|? ? ? H'| |]; subst; [by apply HC|].
    rewrite <-(app_nil_l (String b s)). apply MCat; [|by apply IH2].
    by apply nullable_spec.
  - inversion 1; subst; [apply MAltL|apply MAltR]; auto.
  - inversion 1 as [| |? ? s1 s2 H1 H2| | | |]; subst.
    rewrite <-app_cons. apply MStarApp; [by apply IH|done].
Qed.

Lemma accepts_spec r s : accepts r s = true ↔ Matches r s.
Proof.
  revert r. induction s as [|a s IH]; intros r; simpl.
  - apply nullable_spec.
  - rewrite IH. split; [apply Matches_deriv|apply Matches_cons_inv].
Qed.

(** *** The language of the pattern constructors *)

Lemma Matches_Cat r1 r2 s :
  Matches (Cat r1 r2) s ↔ ∃ s1 s2, s = s1 +:+ s2 ∧ Matches r1 s1 ∧ Matches r2 s2.
Proof.
  split.
  - inversion 1; subst; eauto.
  - intros (s1 & s2 & -> & H1 & H2). by constructor.
Qed.

Lemma Matches_Class p s :
  Matches (Class p) s ↔ ∃ a, s = String a "" ∧ p a = true.
Proof.
  split.
  - inversion 1; subst; eauto.
  - intros (a & -> & Hp). by constructor.
Qed.

Lemma Matches_Lit l s : Matches (Lit l) s ↔ s = l.
Proof.
  revert s. induction l as [|a l IH]; intros s; simpl.
  - split; [by inversion 1|intros ->; constructor].
  - rewrite Matches_Cat. split.
    + intros (s1 & s2 & -> & H1 & H2).
      apply Matches_Class in H1 as (b & -> & Hb).
      apply bool_decide_eq_true in Hb as ->. apply IH in H2 as ->. done.
    + intros ->. exists (String a ""), l. split; [done|]. split.
      * constructor. by apply bool_decide_eq_true.
      * by apply IH.
Qed.

Lemma Matches_Star_Class p s : Matches (Star (Class p)) s ↔ all_in p s = true.
Proof.
  split.
  - intros H. remember (Star (Class p)) as r eqn:Er.
    induction H as [| | | | | |r s1 s2 H1 _ H2 IH2]; try discriminate; [done|].
    injection Er as ->. apply Matches_Class in H1 as (a & -> & Ha).
    rewrite app_cons, app_nil_l. simpl. rewrite Ha. by apply IH2.
  - induction s as [|a s IH]; simpl; [constructor|].
    intros [Ha Hs]%andb_true_iff.
    change (String a s) with (String a "" +:+ s).
    apply MStarApp; [by constructor|by apply IH].
Qed.

Lemma Matches_Plus_Class p s :
  Matches (Plus (Class p)) s ↔ s ≠ "" ∧ all_in p s = true.
Proof.
  unfold Plus. rewrite Matches_Cat. split.
  - intros (s1 & s2 & -> & H1 & H2).
    apply Matches_Class in H1 as (a & -> & Ha).
    apply Matches_Star_Class in H2. rewrite app_cons, app_nil_l.
    split; [done|]. simpl. by rewrite Ha.
  - intros [Hne Hs]. destruct s as [|a s]; [done|].
    simpl in Hs. apply andb_true_iff in Hs as [Ha Hs].
    exists (String a ""), s. split; [done|]. split; [by constructor|].
    by apply Matches_Star_Class.
Qed.

Lemma Matches_Star_any s : Matches (Star (Class any)) s.
Proof. apply Matches_Star_Class. induction s; simpl; auto. Qed.

Lemma MatchString_spec r s :
  MatchString r s = true ↔ ∃ pre mid suf, s = pre +:+ mid +:+ suf ∧ Matches r mid.
Proof.
  unfold MatchString. rewrite accepts_spec, Matches_Cat. split.
  - intros (pre & t & -> & _ & (mid & suf & -> & Hm & _)%Matches_Cat). eauto.
  - intros (pre & mid & suf & -> & Hm). exists pre, (mid +:+ suf).
    split; [done|]. split; [apply Matches_Star_any|].
    apply MCat; [done|apply Matches_Star_any].
Qed.

Lemma ext2fsSuccessRegexp_spec t :
  Matches ext2fsSuccessRegexp t ↔ ext2fsSuccessLine t.
Proof.
  unfold ext2fsSuccessRegexp, ext2fsSuccessLine. split.
  - intros (? & ? & -> & ->%Matches_Lit
            & (dev & ? & -> & Hd%Matches_Plus_Class
            & (? & ? & -> & ->%Matches_Lit
            & (n & ? & -> & Hn%Matches_Plus_Class
            & (? & ? & -> & ->%Matches_Lit
            & (k & ? & -> & Hk%Matches_Plus_Class
            & (u & ? & -> & Hu%Matches_Plus_Class
            & (? & ? & -> & ->%Matches_Lit
            & (c & -> & Hc)%Matches_Class
           )%Matches_Cat)%Matches_Cat)%Matches_Cat)%Matches_Cat
           )%Matches_Cat)%Matches_Cat)%Matches_Cat)%Matches_Cat.
    exists dev, n, k, u, c. done.
  - intros (dev & n & k & u & c & -> & Hd & Hn & Hk & Hu & Hc).
    repeat (apply MCat;
            [first [by apply Matches_Lit | by apply Matches_Plus_Class]|]).
    by constructor.
Qed.

(** [ext2fsSuccessRegexp.MatchString(out)] *)
Lemma ext2fsSuccessRegexp_MatchString out :
  MatchString ext2fsSuccessRegexp out = true
  ↔ ∃ pre line suf, out = pre +:+ line +:+ suf ∧ ext2fsSuccessLine line.
Proof.
  rewrite MatchString_spec. by setoid_rewrite ext2fsSuccessRegexp_spec.
Qed.

End RegexpFacts.

(** ** The resource-requirement comparison *)

Lemma Quantity_Cmp_refl (q : Quantity) : Quantity_Cmp q q = 0.
Proof.
  unfold Quantity_Cmp. assert ((q ?= q)%Qc = Eq) as ->; [|done].
  by apply Qceq_alt.
Qed.

Lemma forallb_Cmp_self (m : gmap string Quantity) :
  forallb (λ kv, bool_decide (Quantity_Cmp kv.2 (quantityAt m kv.1) = 0))
          (map_to_list m) = true.
Proof.
  apply forallb_forall. intros [k q] Hin%list_elem_of_In%elem_of_map_to_list.
  apply bool_decide_eq_true. unfold quantityAt. cbn [fst snd]. rewrite Hin.
  apply Quantity_Cmp_refl.
Qed.

Lemma compareResoucesAssumeFirstNotNil_refl (a : ResourceRequirements) :
  compareResoucesAssumeFirstNotNil a (Some a) = true.
Proof.
  unfold compareResoucesAssumeFirstNotNil. case_bool_decide as Hs; [done|].
  by rewrite !forallb_Cmp_self.
Qed.

Lemma compareResources_refl (a : ResourceRequirements) :
  compareResources (Some a) (Some a) = true.
Proof.
  unfold compareResources. by rewrite !compareResoucesAssumeFirstNotNil_refl.
Qed.

(** C10. Two requirement sets, both present and both without requests,
    compare equal whatever their limits are: with no requests on the
    other side [compareResoucesAssumeFirstNotNil] answers from the
    number of requests alone and never ranges over the limits. *)
Theorem compareResources_no_requests (a b : ResourceRequirements) :
  Requests a = ∅ → Requests b = ∅ →
  compareResoucesAssumeFirstNotNil a (Some b) = true
  ∧ compareResoucesAssumeFirstNotNil b (Some a) = true
  ∧ compareResources (Some a) (Some b) = true.
Proof.
  intros Ha Hb.
  assert (compareResoucesAssumeFirstNotNil a (Some b) = true) as Hab.
  { unfold compareResoucesAssumeFirstNotNil. by rewrite Ha, Hb. }
  assert (compareResoucesAssumeFirstNotNil b (Some a) = true) as Hba.
  { unfold compareResoucesAssumeFirstNotNil. by rewrite Ha, Hb. }
  unfold compareResources. by rewrite Hab, Hba.
Qed.

(** ** The workload-set differ *)

Section DifferFacts.
Context `{K8sTypes}.

Implicit Types cur new : StatefulSet.

(** The loop over the volume claim templates leaves [match] and
    [needsRollUpdate] alone. *)
Lemma compareVolumeClaimTemplates_keeps i todo tpls v v' :
  compareVolumeClaimTemplates i todo tpls v = Val v' →
  v_match v' = v_match v ∧ needsRollUpdate v' = needsRollUpdate v
  ∧ (needsReplace v = true → needsReplace v' = true).
Proof.
  revert i v. induction todo as [|t1 todo IH]; intros i v; simpl.
  - intros [= <-]. done.
  - unfold index. destruct (tpls !! i) as [t2|]; simpl; [|done].
    case_bool_decide.
    + intros (-> & -> & Hr)%IH. simpl in *. auto.
    + intros (-> & -> & Hr)%IH. unfold when in *.
      repeat case_match; simpl in *; auto.
Qed.

(** Compared with themselves, the templates raise no flag. *)
Lemma compareVolumeClaimTemplates_same done_ todo v :
  compareVolumeClaimTemplates (length done_) todo (done_ ++ todo) v = Val v.
Proof.
  revert done_ v. induction todo as [|t todo IH]; intros done_ v; simpl; [done|].
  unfold index. rewrite list_lookup_middle by done. simpl.
  rewrite bool_decide_false by (intros ?; done).
  unfold when, DeepEqual. rewrite !bool_decide_true by done. simpl.
  specialize (IH (done_ ++ [t]) v).
  rewrite length_app in IH. simpl in IH. rewrite Nat.add_1_r in IH.
  by rewrite <-app_assoc in IH.
Qed.

(** The loop panics exactly when the desired object has fewer
    templates than the live one. *)
Lemma compareVolumeClaimTemplates_returns i todo tpls v :
  (i + length todo ≤ length tpls)%nat →
  ∃ v', compareVolumeClaimTemplates i todo tpls v = Val v'.
Proof.
  revert i v. induction todo as [|t1 todo IH]; intros i v Hlen; simpl in *.
  - eauto.
  - unfold index.
    destruct (lookup_lt_is_Some_2 tpls i) as [t2 ->]; [lia|]. simpl.
    case_bool_decide; apply IH; lia.
Qed.

(** C5. With no container in the live object, and the replica counts
    of both objects set, the differ returns the zero result: no match,
    no replace, no rolling update, no reasons; whatever else differs. *)
Theorem compareStatefulSetWith_no_containers cur new :
  Template_Containers cur = [] →
  is_Some (Spec_Replicas cur) → is_Some (Spec_Replicas new) →
  compareStatefulSetWith cur new
  = Val {| match_ := false; replace := false; rollingUpdate := false;
           reasons := [] |}.
Proof.
  intros Hc [r1 Hr1] [r2 Hr2]. unfold compareStatefulSetWith.
  rewrite Hr1, Hr2, Hc. simpl. done.
Qed.

Lemma v_match_when c f v :
  (∀ v, v_match (f v) = v_match v) → v_match (when c f v) = v_match v.
Proof. intros Hf. unfold when. by destruct c. Qed.

Lemma needsRollUpdate_when_roll c s v :
  needsRollUpdate (when c (λ v, add_reason s (set_needsRollUpdate v)) v)
  = c || needsRollUpdate v.
Proof. by destruct c. Qed.

Lemma needsReplace_when_roll c s v :
  needsReplace (when c (λ v, add_reason s (set_needsRollUpdate v)) v)
  = needsReplace v.
Proof. by destruct c. Qed.

(** The last [if] of the function: [match] is cleared when a flag is
    set, the flags stay. *)
Lemma final_when v :
  let v' := when (needsRollUpdate v || needsReplace v) (set_match false) v in
  v_match v' = negb (needsRollUpdate v || needsReplace v) && v_match v
  ∧ needsRollUpdate v' = needsRollUpdate v
  ∧ needsReplace v' = needsReplace v.
Proof. unfold when. by destruct (needsRollUpdate v || needsReplace v). Qed.

(** C4 (amended). With a container in the live object, the differ
    returns on a comparable pair, and [match] holds exactly when the
    replica counts agree and neither [needsRollingUpdate] nor
    [needsReplace] is set. *)
Theorem compareStatefulSetWith_match cur new :
  Template_Containers cur ≠ [] → comparable cur new →
  ∃ r r1 r2,
    compareStatefulSetWith cur new = Val r
    ∧ Spec_Replicas cur = Some r1 ∧ Spec_Replicas new = Some r2
    ∧ match_ r = negb (bool_decide (r1 ≠ r2) || rollingUpdate r || replace r).
Proof.
  intros Hc ([r1 Hr1] & [r2 Hr2] & [g1 Hg1] & [g2 Hg2] & Hlen & Hn).
  unfold compareStatefulSetWith. rewrite Hr1, Hr2, Hg1, Hg2.
  cbn [deref mbind res_bind mret res_ret].
  rewrite bool_decide_false by (by destruct (Template_Containers cur)).
  match goal with
  | |- context [compareVolumeClaimTemplates 0 ?t ?n ?v] =>
      destruct (compareVolumeClaimTemplates_returns 0 t n v Hlen) as [v' Hv'];
      rewrite Hv'; apply compareVolumeClaimTemplates_keeps in Hv' as (Hm & _)
  end.
  destruct (Template_Containers cur) as [|c1 cs1]; [done|].
  destruct (Template_Containers new) as [|c2 cs2]; [done|].
  cbn [mbind res_bind mret res_ret index lookup list_lookup].
  eexists _, r1, r2. split; [done|]. split; [done|]. split; [done|].
  cbn [match_ rollingUpdate replace].
  match goal with
  | |- context [when (needsRollUpdate ?v || needsReplace ?v) (set_match false) ?v] =>
      destruct (final_when v) as (-> & -> & ->)
  end.
  rewrite !v_match_when by done. rewrite Hm.
  rewrite !v_match_when by done.
  unfold when at 1.
  destruct (bool_decide (r1 ≠ r2)); cbn [v_match add_reason set_match];
    by destruct (needsRollUpdate _), (needsReplace _).
Qed.

(** C8 (amended). Two objects that differ in the first container
    only: the differ returns, [needsReplace] is not set, and
    [needsRollingUpdate] is set when image, ports or environment
    differ; when these three agree it is set exactly when
    [compareResources] finds the resource requirements unequal. *)
Theorem compareStatefulSetWith_primary_container cur c1 c2 cs :
  is_Some (Spec_Replicas cur) →
  is_Some (Template_TerminationGracePeriodSeconds cur) →
  Template_Containers cur = c1 :: cs →
  ∃ r,
    compareStatefulSetWith cur (with_Containers (c2 :: cs) cur) = Val r
    ∧ replace r = false
    ∧ (Image c1 ≠ Image c2 ∨ Ports c1 ≠ Ports c2 ∨ Env c1 ≠ Env c2 →
       rollingUpdate r = true)
    ∧ (Image c1 = Image c2 → Ports c1 = Ports c2 → Env c1 = Env c2 →
       rollingUpdate r
       = negb (compareResources (Some (Resources c1)) (Some (Resources c2)))).
Proof.
  intros [r1 Hr1] [g1 Hg1] Hc. unfold compareStatefulSetWith, DeepEqual.
  cbn [with_Containers Spec_Replicas Template_Labels Template_Annotations
       Template_ServiceAccountName Template_TerminationGracePeriodSeconds
       Template_Containers Spec_VolumeClaimTemplates].
  rewrite Hr1, Hg1, Hc. cbn [deref mbind res_bind mret res_ret length].
  rewrite !(bool_decide_false (_ ≠ _)) by (intros ?; done).
  rewrite !(bool_decide_true (_ = _ :> option (gmap string string))) by done.
  cbn [when negb].
  rewrite (compareVolumeClaimTemplates_same []).
  cbn [mbind res_bind mret res_ret index lookup list_lookup].
  eexists. split; [done|]. cbn [rollingUpdate replace].
  match goal with
  | |- context [when (needsRollUpdate ?v || needsReplace ?v) (set_match false) ?v] =>
      destruct (final_when v) as (_ & -> & ->)
  end.
  rewrite !needsRollUpdate_when_roll, !needsReplace_when_roll.
  cbn [needsRollUpdate needsReplace set_match].
  split; [done|]. split.
  - intros Hd. repeat case_bool_decide; rewrite ?orb_true_r; try done.
    tauto.
  - intros Hi Hp He.
    rewrite (bool_decide_false (_ ≠ _)) by (intros ?; done).
    rewrite !bool_decide_true by done. simpl. by rewrite orb_false_r.
Qed.
End DifferFacts.

(** ** Running the methods of the cluster *)

Section ClusterFacts.
Context `{K8sTypes} {W : Type} `{!Collaborators (W := W)}.

Local Abbreviation M := (M (W := W)).
Local Abbreviation St := (St (W := W)).
Local Abbreviation Cluster := (Cluster (W := W)).
Local Abbreviation returns := (returns (W := W)).

Lemma returns_ret {A} (a : A) : returns (mret a : M A).
Proof. intros st. by eexists _, _. Qed.

Lemma returns_bind {A B} (m : M A) (k : A → M B) :
  returns m → (∀ a, returns (k a)) → returns (m ≫= k).
Proof.
  intros Hm Hk st. destruct (Hm st) as (a & st1 & E).
  destruct (Hk a st1) as (b & st2 & E2). exists b, st2.
  unfold mbind, M_bind. by rewrite E.
Qed.

Lemma returns_get : returns get.
Proof. intros st. by eexists _, _. Qed.
Lemma returns_modify f : returns (modify f).
Proof. intros st. by eexists _, _. Qed.
Lemma returns_emit ev : returns (emit ev).
Proof. intros st. by eexists _, _. Qed.
Lemma returns_callW {A} (f : W → A * W) : returns (callW f).
Proof. intros st. unfold callW. destruct (f _). by eexists _, _. Qed.
Lemma returns_callR {A} (f : Cluster → A * W) : returns (callR f).
Proof. intros st. unfold callR. destruct (f _). by eexists _, _. Qed.
Lemma returns_call {A} (f : Cluster → A * Cluster) : returns (call f).
Proof. intros st. unfold call. destruct (f _). by eexists _, _. Qed.

Ltac returns_step :=
  first
    [ apply returns_ret | apply returns_get | apply returns_modify
    | apply returns_emit | apply returns_callW | apply returns_callR
    | apply returns_call
    | apply returns_bind; [|intros ?] ].

Lemma returns_setStatus s : returns (setStatus s).
Proof. unfold setStatus. repeat returns_step. Qed.

Lemma returns_initRobotUsers_range todo : returns (initRobotUsers_range todo).
Proof.
  induction todo as [|[u fl] todo IH]; simpl; [apply returns_ret|].
  destruct (negb _); [apply returns_ret|].
  destruct (normalizeUserFlags fl) as [flags [e|]]; [apply returns_ret|].
  unfold randomPassword. repeat returns_step. done.
Qed.

Lemma returns_initInfrastructureRoles_range todo :
  returns (initInfrastructureRoles_range todo).
Proof.
  induction todo as [|[u d] todo IH]; simpl; [apply returns_ret|].
  destruct (negb _); [apply returns_ret|].
  destruct (normalizeUserFlags _) as [flags [e|]]; [apply returns_ret|].
  repeat returns_step. done.
Qed.

Lemma returns_initHumanUsers_range members : returns (initHumanUsers_range members).
Proof.
  induction members as [|u members IH]; simpl; [apply returns_ret|].
  repeat returns_step. done.
Qed.

Lemma returns_initUsers : returns initUsers.
Proof.
  unfold initUsers, initSystemUsers, initInfrastructureRoles, initRobotUsers,
    initHumanUsers, randomPassword.
  repeat first
    [ apply returns_initInfrastructureRoles_range
    | apply returns_initRobotUsers_range
    | apply returns_initHumanUsers_range
    | returns_step
    | match goal with
      | |- returns (match ?x with _ => _ end) => destruct x
      end ].
Qed.

(** [Create] returns: nothing in its body panics, so the deferred
    function runs after a [return], with the [err] of that moment. *)
Lemma Create_returns : returns Create.
Proof.
  unfold Create, Create_body.
  repeat first
    [ apply returns_initUsers
    | apply returns_setStatus
    | returns_step
    | match goal with
      | |- returns (match ?x with _ => _ end) => destruct x
      | |- returns (if ?x then _ else _) => destruct x
      end ].
Qed.

(** *** [resizeVolumeFS] *)

Lemma resize2fsSucceeded_spec out :
  resize2fsSucceeded out = true ↔ recognised out.
Proof.
  unfold resize2fsSucceeded, recognised.
  by rewrite orb_true_iff, andb_true_iff, !GoStringsFacts.Contains_spec,
    RegexpFacts.ext2fsSuccessRegexp_MatchString.
Qed.

(** One run of [resizeVolumeFS]: the call, its record in the trace,
    and the value returned. *)
Lemma resizeVolumeFS_run podName st out err w :
  ExecCommand podName resize2fs (cl st) = ((out, err), w) →
  resizeVolumeFS podName st
  = (Val (if err is Some _ then err
          else if resize2fsSucceeded out then None
          else Some ("unrecognized output: " +:+ out +:+ ", assuming error")),
     {| cl := set_world w (cl st);
        trace := trace st ++ [EvExecCommand podName resize2fs out err] |}).
Proof.
  intros Hexec. unfold resizeVolumeFS, callR, emit, mbind, M_bind.
  rewrite Hexec. simpl. destruct err as [e|]; [done|].
  by destruct (resize2fsSucceeded out).
Qed.

(** C7. [resizeVolumeFS] returns [nil] exactly when the remote command
    returned no error and its output contains "Nothing to do", or
    contains "on-line resizing required" and a line of the form
    "The filesystem on <dev> is now <n> (<k><u>) blocks long" followed
    by one more byte; with no error from the command, every other
    output, the empty one included, gives the error
    "unrecognized output: <out>, assuming error". *)
Theorem resizeVolumeFS_spec podName st out err w :
  ExecCommand podName resize2fs (cl st) = ((out, err), w) →
  ∃ r,
    resizeVolumeFS podName st
    = (Val r, {| cl := set_world w (cl st);
                 trace := trace st ++ [EvExecCommand podName resize2fs out err] |})
    ∧ (r = None ↔ err = None ∧ recognised out)
    ∧ (err = None → ¬ recognised out →
       r = Some ("unrecognized output: " +:+ out +:+ ", assuming error"))
    ∧ (err = None → out = "" →
       r = Some "unrecognized output: , assuming error").
Proof.
  intros Hexec. rewrite (resizeVolumeFS_run _ _ _ _ _ Hexec).
  eexists. split; [done|]. rewrite <-resize2fsSucceeded_spec.
  destruct err as [e|]; simpl.
  - split; [|done]. split; [done|]. by intros [? _].
  - destruct (resize2fsSucceeded out) eqn:Hok.
    + split; [done|]. split; [done|]. intros _ ->. done.
    + split; [|split].
      * split; [done|]. by intros [_ ?].
      * done.
      * by intros _ ->.
Qed.

(** *** [updateVolumes] *)

Lemma updateVolume_same q n pv st :
  GiB (Quantity_ScaledValue0 (capacityOf pv)) = n →
  updateVolume q n pv st = (Val (None, pv), st).
Proof. intros Hs. unfold updateVolume. by rewrite bool_decide_false by (by intros ?). Qed.





(** *** The role model *)

Lemma initHumanUsers_range_other members st u :
  u ∉ members →
  ∃ st', initHumanUsers_range members st = (Val (), st')
         ∧ pgUsers (cl st') !! u = pgUsers (cl st) !! u
         ∧ trace st' = trace st.
Proof.
  revert st. induction members as [|m members IH]; intros st Hu; simpl.
  - by eexists.
  - apply not_elem_of_cons in Hu as [Hne Hu].
    unfold mbind, M_bind, modify. simpl.
    destruct (IH {| cl := set_pgUsers
                      (<[m := {| pg_Name := m; pg_Password := "";
                                 pg_Flags := [RoleFlagLogin; RoleFlagSuperuser];
                                 pg_MemberOf := [PamRoleName (cl st)] |}]>
                         (pgUsers (cl st))) (cl st);
                    trace := trace st |} Hu) as (st' & -> & Hl & Ht).
    exists st'. split; [done|]. rewrite Hl, Ht. simpl.
    by rewrite lookup_insert_ne.
Qed.

(** A map holds one entry for a key that it binds. *)
Lemma one_entry {V} (m : gmap string V) u x :
  m !! u = Some x →
  length (filter (λ kv, kv.1 = u) (map_to_list m)) = 1%nat.
Proof.
  intros Hm. rewrite <-(insert_delete_id m u x) by done.
  rewrite map_to_list_insert by apply lookup_delete_eq.
  rewrite filter_cons_True by done. simpl. f_equal.
  destruct (filter _ (map_to_list (delete u m))) as [|[k v] l] eqn:E; [done|].
  assert ((k, v) ∈ filter (λ kv : string * V, kv.1 = u) (map_to_list (delete u m)))
    as [Hk Hin%elem_of_map_to_list]%list_elem_of_filter by (rewrite E; left).
  simpl in Hk. subst k. by rewrite lookup_delete_eq in Hin.
Qed.

Lemma rangeOrder_singleton {V} (u : string) (x : V) :
  (∀ V (m : gmap string V), rangeOrder V m ≡ₚ map_to_list m) →
  rangeOrder V {[u := x]} = [(u, x)].
Proof.
  intros Hperm. apply Permutation_singleton_r.
  by rewrite Hperm, map_to_list_singleton.
Qed.

(** C3 (amended). One infrastructure role and one robot role of the
    same valid name, flags that normalise, and a team without that
    name: [initUsers] succeeds and the map holds one entry for the
    name, the robot role: the name, the password drawn for it (the
    third draw, after those of the two system users), the normalised
    flags of the cluster manifest and no group. *)
Theorem initUsers_same_name st u data userFlags fl1 fl2 :
  (∀ V (m : gmap string V), rangeOrder V m ≡ₚ map_to_list m) →
  InfrastructureRoles (cl st) = {[u := data]} →
  Users (Spec (cl st)) = {[u := userFlags]} →
  isValidUsername u = true →
  normalizeUserFlags (pg_Flags data) = (fl1, None) →
  normalizeUserFlags userFlags = (fl2, None) →
  (∀ c, Spec c = Spec (cl st) →
        ∃ members w, getTeamMembers c = ((members, None), w) ∧ u ∉ members) →
  ∃ st' pw,
    initUsers st = (Val None, st')
    ∧ pgUsers (cl st') !! u
      = Some {| pg_Name := u; pg_Password := pw; pg_Flags := fl2;
                pg_MemberOf := [] |}
    ∧ length (filter (λ kv, kv.1 = u) (map_to_list (pgUsers (cl st')))) = 1%nat
    ∧ pw = (RandomPassword PasswordLength
              (RandomPassword PasswordLength
                 (RandomPassword PasswordLength (world (cl st))).2).2).1.
Proof.
  intros Hperm Hinfra Husers Hvalid Hn1 Hn2 Hteam.
  unfold initUsers, initSystemUsers, initInfrastructureRoles, initRobotUsers,
    initHumanUsers, randomPassword, callW, callR, modify, get, mbind, M_bind,
    mret, M_ret.
  simpl.
  destruct (RandomPassword PasswordLength (world (cl st))) as [pw1 w1]. simpl.
  destruct (RandomPassword PasswordLength w1) as [pw2 w2]. simpl.
  rewrite Hinfra, (rangeOrder_singleton _ _ Hperm). simpl.
  rewrite Hvalid, Hn1. simpl.
  rewrite Husers, (rangeOrder_singleton _ _ Hperm). simpl.
  rewrite Hvalid, Hn2. simpl.
  unfold randomPassword, callW, modify, mbind, M_bind, mret, M_ret. simpl.
  destruct (RandomPassword PasswordLength w2) as [pw3 w3]. simpl.
  match goal with
  | |- context [getTeamMembers ?c] =>
      destruct (Hteam c) as (members & w4 & -> & Hnot); [done|]
  end.
  simpl.
  match goal with
  | |- context [initHumanUsers_range members ?s] =>
      destruct (initHumanUsers_range_other members s u Hnot)
        as (st' & -> & Hl & _)
  end.
  simpl in Hl. rewrite lookup_insert_eq in Hl.
  exists st', pw3. split; [done|]. split; [done|]. split; [|done].
  by eapply one_entry.
Qed.

(** *** The pod-event queue *)

(** C9. The key of a pod event is the printed pod name, a dash and
    the resource version, and it does not determine the two: there are
    two events that differ in pod name and resource version and have
    the same key; received one after the other by a cluster with an
    empty queue they leave one queued entry, which holds the second. *)
Theorem podEventKey_not_injective :
  (∀ e, podEventKey e
        = NamespacedName_String (PodName e) +:+ "-" +:+ ResourceVersion e)
  ∧ ∃ e1 e2 : PodEvent,
      PodName e1 ≠ PodName e2
      ∧ ResourceVersion e1 ≠ ResourceVersion e2
      ∧ podEventKey e1 = podEventKey e2
      ∧ ∀ st : St, podEventsQueue (cl st) = NewFIFO →
          ∃ st', (ReceivePodEvent e1 ≫= λ _, ReceivePodEvent e2) st = (Val (), st')
                 ∧ queue (podEventsQueue (cl st')) = [podEventKey e1]
                 ∧ items (podEventsQueue (cl st')) = {[podEventKey e1 := e2]}.
Proof.
  split; [done|].
  pose (cn := {| Namespace := "default"; Name := "acid-test" |}).
  exists {| ClusterName := cn;
            PodName := {| Namespace := "default"; Name := "acid-test-0" |};
            ResourceVersion := "1-2"; EventType_ := EventUpdate |},
         {| ClusterName := cn;
            PodName := {| Namespace := "default"; Name := "acid-test-0-1" |};
            ResourceVersion := "2"; EventType_ := EventUpdate |}.
  split; [done|]. split; [done|]. split; [done|].
  intros st Hq. eexists. split; [done|]. simpl. rewrite Hq.
  unfold FIFO_Add. simpl.
  rewrite (bool_decide_false (is_Some (∅ !! _))) by (rewrite lookup_empty; by intros [? ?]).
  simpl. rewrite bool_decide_true by (rewrite lookup_insert_eq; by eexists).
  split; [done|]. by rewrite insert_insert_eq, insert_empty.
Qed.
End ClusterFacts.

(** ** The examples *)

Section ExampleFacts.
Import Examples.
#[local] Existing Instance exampleTypes.
#[local] Existing Instance exampleCollaborators.

(** C10, an instance: no requests on either side, one CPU against two
    as limits, and the requirements compare equal. *)
Lemma compareResources_no_requests_witness :
  Limits (Resources spilo) ≠ Limits (Resources spiloTwoCPUs)
  ∧ compareResources (Some (Resources spilo)) (Some (Resources spiloTwoCPUs)) = true.
Proof.
  split.
  - intros Heq. apply (f_equal (λ m, m !! "cpu")) in Heq. vm_compute in Heq.
    discriminate.
  - destruct (compareResources_no_requests (Resources spilo)
                (Resources spiloTwoCPUs) eq_refl eq_refl) as (_ & _ & E).
    exact E.
Defined.

(** C5, an instance: a live object without containers against the
    scaled object of the examples. *)
Lemma compareStatefulSetWith_no_containers_witness :
  compareStatefulSetWith emptyStatefulSet scaledStatefulSet
  = Val {| match_ := false; replace := false; rollingUpdate := false;
           reasons := [] |}.
Proof.
  apply compareStatefulSetWith_no_containers;
    [reflexivity | by eexists | by eexists].
Defined.

(** C4 as the specification states it fails: two objects that differ
    in the number of replicas only do not match, and neither flag is
    set. *)
Lemma compareStatefulSetWith_match_counterexample :
  ∃ r,
    compareStatefulSetWith exampleStatefulSet scaledStatefulSet = Val r
    ∧ Template_Containers exampleStatefulSet ≠ []
    ∧ rollingUpdate r = false ∧ replace r = false
    ∧ match_ r ≠ negb (rollingUpdate r || replace r).
Proof. eexists. split; [vm_compute; reflexivity|]. simpl. done. Qed.

(** C4 (amended), an instance. *)
Lemma compareStatefulSetWith_match_witness :
  ∃ r r1 r2,
    compareStatefulSetWith exampleStatefulSet scaledStatefulSet = Val r
    ∧ Spec_Replicas exampleStatefulSet = Some r1
    ∧ Spec_Replicas scaledStatefulSet = Some r2
    ∧ match_ r = negb (bool_decide (r1 ≠ r2) || rollingUpdate r || replace r).
Proof.
  apply compareStatefulSetWith_match; [done|].
  unfold comparable. simpl. repeat split; by eauto.
Defined.

(** C8 as the specification states it fails: two objects that differ
    in the CPU limit of the first container only, and no rolling
    update is asked for. *)
Lemma compareStatefulSetWith_primary_container_counterexample :
  ∃ r,
    compareStatefulSetWith exampleStatefulSet
      (with_Containers [spiloTwoCPUs] exampleStatefulSet) = Val r
    ∧ Template_Containers exampleStatefulSet = [spilo]
    ∧ Limits (Resources spilo) ≠ Limits (Resources spiloTwoCPUs)
    ∧ rollingUpdate r = false.
Proof.
  eexists. split; [vm_compute; reflexivity|]. split; [done|]. split; [|done].
  intros Heq. apply (f_equal (λ m, m !! "cpu")) in Heq. vm_compute in Heq.
  discriminate.
Qed.

(** C8 (amended), an instance: another image. *)
Lemma compareStatefulSetWith_primary_container_witness :
  ∃ r,
    compareStatefulSetWith exampleStatefulSet
      (with_Containers [spiloUpgraded] exampleStatefulSet) = Val r
    ∧ replace r = false ∧ rollingUpdate r = true.
Proof.
  destruct (compareStatefulSetWith_primary_container exampleStatefulSet
              spilo spiloUpgraded [])
    as (r & E & Hrep & Hroll & _); [by eexists | by eexists | reflexivity |].
  exists r. split; [exact E|]. split; [exact Hrep|].
  apply Hroll. left. discriminate.
Defined.

(** C7, an instance: the output of a [resize2fs] that grew the file
    system. *)
Lemma resizeVolumeFS_spec_witness :
  (resizeVolumeFS examplePod (exampleState [])).1 = Val None.
Proof.
  assert (ExecCommand examplePod resize2fs (cl (exampleState []))
          = ((resize2fsGrown, None), exampleWorld [])) as Hexec
    by (vm_compute; reflexivity).
  destruct (resizeVolumeFS_spec examplePod (exampleState [])
              resize2fsGrown None (exampleWorld []) Hexec)
    as (r & E & Hr & _).
  rewrite E. simpl. f_equal. apply Hr. split; [reflexivity|].
  apply resize2fsSucceeded_spec. vm_compute. reflexivity.
Defined.

(** C3 as the specification states it fails: the infrastructure role
    and the robot role are both called "zalando", and the entry of
    that name is not the infrastructure role. *)
Lemma initUsers_same_name_counterexample :
  ∃ st,
    InfrastructureRoles (cl (exampleState [])) !! "zalando"
    = Some infrastructureRole
    ∧ Users (Spec (cl (exampleState []))) !! "zalando" = Some ["CREATEDB"]
    ∧ initUsers (exampleState []) = (Val None, st)
    ∧ pgUsers (cl st) !! "zalando"
      = Some {| pg_Name := "zalando"; pg_Password := "password2";
                pg_Flags := ["CREATEDB"]; pg_MemberOf := [] |}
    ∧ pgUsers (cl st) !! "zalando" ≠ Some infrastructureRole.
Proof.
  eexists. split; [vm_compute; reflexivity|]. split; [vm_compute; reflexivity|].
  split; [vm_compute; reflexivity|].
  split; [vm_compute; reflexivity|]. vm_compute. discriminate.
Qed.

(** C3 (amended), an instance. *)
Lemma initUsers_same_name_witness :
  ∃ st pw,
    initUsers (exampleState []) = (Val None, st)
    ∧ pgUsers (cl st) !! "zalando"
      = Some {| pg_Name := "zalando"; pg_Password := pw;
                pg_Flags := ["CREATEDB"]; pg_MemberOf := [] |}.
Proof.
  destruct (initUsers_same_name (exampleState []) "zalando"
              infrastructureRole ["CREATEDB"] ["SUPERUSER"] ["CREATEDB"])
    as (st & pw & E & Hl & _).
  - intros V m. reflexivity.
  - reflexivity.
  - reflexivity.
  - vm_compute. reflexivity.
  - reflexivity.
  - reflexivity.
  - intros c Hc. exists [], (world c). simpl. rewrite Hc. simpl.
    split; [reflexivity|]. apply not_elem_of_nil.
  - exists st, pw. split; [exact E|exact Hl].
Defined.

(** C6, a run: the volume of 10Gi is grown to 20Gi, EC2 first, then
    the pod, then the volume object; the volume of 20Gi is left
    alone. *)
Example updateVolumes_grows_one_volume :
  ∃ pv,
    trace (updateVolumes (sp_Volume grownSpec) (exampleState [])).2
    = [EvResizeVolume "vol-acid-test-0" 20 None;
       EvExecCommand examplePod resize2fs resize2fsGrown None;
       EvUpdatePersistentVolume pv None]
    ∧ pv_Name pv = "acid-test-0"
    ∧ GiB (Quantity_ScaledValue0 (capacityOf pv)) = 20.
Proof. eexists. split; [vm_compute; reflexivity|]. vm_compute. done. Qed.


(** C1. [Create] on a cluster whose database cannot be reached returns
    the error with the status [Running]; on a cluster whose resources
    cannot be listed it returns [nil] with the status [AddFailed]. *)
Theorem Create_status_against_error :
  (∃ st,
     Create (exampleState ["initDbConn"])
     = (Val (Some "could not init db connection: initDbConn failed"), st)
     ∧ Status (cl st) = ClusterStatusRunning
     ∧ trace st = [EvPatchStatus ClusterStatusCreating None;
                   EvPatchStatus ClusterStatusRunning None])
  ∧ (∃ st,
       Create (exampleState ["ListResources"]) = (Val None, st)
       ∧ Status (cl st) = ClusterStatusAddFailed
       ∧ trace st = [EvPatchStatus ClusterStatusCreating None;
                     EvPatchStatus ClusterStatusAddFailed None]).
Proof.
  split; eexists; (split; [vm_compute; reflexivity|]); vm_compute; done.
Qed.

(** C2. [Update] to a manifest with a larger volume, on a cluster
    whose volumes cannot be listed, returns the error and leaves the
    status [Updating]; so it does when the new statefulset cannot be
    generated. *)
Theorem Update_error_without_UpdateFailed :
  (∃ st,
     Update grownSpec (exampleState ["listPersistentVolumes"])
     = (Val (Some "Could not update volumes: could not list persistent volumes: listPersistentVolumes failed"),
        st)
     ∧ Status (cl st) = ClusterStatusUpdating
     ∧ trace st = [EvPatchStatus ClusterStatusUpdating None])
  ∧ (∃ st,
       Update exampleSpec (exampleState ["genStatefulSet"])
       = (Val (Some "could not generate statefulset: genStatefulSet failed"), st)
       ∧ Status (cl st) = ClusterStatusUpdating
       ∧ trace st = [EvPatchStatus ClusterStatusUpdating None]).
Proof.
  split; eexists; (split; [vm_compute; reflexivity|]); vm_compute; done.
Qed.
End ExampleFacts.

(** * Further properties *)

(** ** The resource-requirement comparison *)

Lemma Quantity_Cmp_eq (q y : Quantity) : Quantity_Cmp q y = 0 ↔ q = y.
Proof.
  unfold Quantity_Cmp. rewrite Qceq_alt. by destruct (q ?= y)%Qc.
Qed.

Lemma forallb_Cmp_spec (m m' : gmap string Quantity) :
  forallb (λ kv, bool_decide (Quantity_Cmp kv.2 (quantityAt m' kv.1) = 0))
          (map_to_list m) = true
  ↔ ∀ k v, m !! k = Some v → v = quantityAt m' k.
Proof.
  rewrite forallb_forall. split.
  - intros Hall k v Hk.
    specialize (Hall (k, v)). rewrite <-list_elem_of_In, elem_of_map_to_list in Hall.
    specialize (Hall Hk). apply bool_decide_eq_true in Hall.
    by apply Quantity_Cmp_eq.
  - intros Hall [k v] Hin%list_elem_of_In%elem_of_map_to_list.
    apply bool_decide_eq_true, Quantity_Cmp_eq. by apply Hall.
Qed.

Lemma quantityAt_agree (m m' : gmap string Quantity) :
  (∀ k v, m !! k = Some v → v = quantityAt m' k) →
  (∀ k v, m' !! k = Some v → v = quantityAt m k) →
  ∀ k, quantityAt m k = quantityAt m' k.
Proof.
  intros H1 H2 k. unfold quantityAt at 1.
  destruct (m !! k) as [v|] eqn:Hk; simpl; [by apply H1|].
  unfold quantityAt. destruct (m' !! k) as [w|] eqn:Hk'; simpl; [|done].
  rewrite (H2 k w Hk'). unfold quantityAt. by rewrite Hk.
Qed.

Lemma compareResoucesAssumeFirstNotNil_spec (a b : ResourceRequirements) :
  Requests b ≠ ∅ →
  compareResoucesAssumeFirstNotNil a (Some b) = true
  ↔ (∀ k v, Requests a !! k = Some v → v = quantityAt (Requests b) k)
    ∧ (∀ k v, Limits a !! k = Some v → v = quantityAt (Limits b) k).
Proof.
  intros Hb. unfold compareResoucesAssumeFirstNotNil.
  rewrite bool_decide_false by (by rewrite map_size_empty_iff).
  rewrite <-!forallb_Cmp_spec.
  destruct (forallb _ (map_to_list (Requests a))),
    (forallb _ (map_to_list (Limits a))); simpl;
    split; try done; by intros [? ?].
Qed.

(** X1. When both sides have requests, [compareResources] finds them
    equal exactly when every resource has the same quantity in the
    requests of both and the same quantity in the limits of both, a
    resource without an entry counting as zero. *)
Theorem compareResources_pointwise (a b : ResourceRequirements) :
  Requests a ≠ ∅ → Requests b ≠ ∅ →
  compareResources (Some a) (Some b) = true
  ↔ (∀ k, quantityAt (Requests a) k = quantityAt (Requests b) k)
    ∧ (∀ k, quantityAt (Limits a) k = quantityAt (Limits b) k).
Proof.
  intros Ha Hb. unfold compareResources.
  pose proof (compareResoucesAssumeFirstNotNil_spec a b Hb) as Hab.
  pose proof (compareResoucesAssumeFirstNotNil_spec b a Ha) as Hba.
  split.
  - intros Heq.
    destruct (compareResoucesAssumeFirstNotNil a (Some b)); [|done].
    destruct (proj1 Hab eq_refl) as [Hr Hl].
    destruct (proj1 Hba Heq) as [Hr' Hl'].
    split; by apply quantityAt_agree.
  - intros [Hr Hl].
    assert (compareResoucesAssumeFirstNotNil a (Some b) = true) as ->.
    { apply Hab. split; intros k v Hk.
      - rewrite <-Hr. unfold quantityAt. by rewrite Hk.
      - rewrite <-Hl. unfold quantityAt. by rewrite Hk. }
    apply Hba. split; intros k v Hk.
    + rewrite Hr. unfold quantityAt. by rewrite Hk.
    + rewrite Hl. unfold quantityAt. by rewrite Hk.
Qed.

(** X2. [compareResources] gives the same answer in both argument
    orders, and against an absent side it holds exactly when the present
    side has no requests. *)
Theorem compareResources_symmetric (a b : option ResourceRequirements)
    (r : ResourceRequirements) :
  compareResources a b = compareResources b a
  ∧ compareResources (Some r) None = bool_decide (Requests r = ∅)
  ∧ compareResources None (Some r) = bool_decide (Requests r = ∅).
Proof.
  split; [|split].
  - destruct a as [a|], b as [b|]; unfold compareResources; try done.
    destruct (compareResoucesAssumeFirstNotNil a (Some b)),
      (compareResoucesAssumeFirstNotNil b (Some a)); done.
  - unfold compareResources, compareResoucesAssumeFirstNotNil.
    apply bool_decide_ext, map_size_empty_iff.
  - unfold compareResources, compareResoucesAssumeFirstNotNil.
    apply bool_decide_ext, map_size_empty_iff.
Qed.

(** ** The workload-set differ *)

Section DifferMore.
Context `{K8sTypes}.

Implicit Types cur new : StatefulSet.

(** A flag that is set stays set. *)
Lemma needsRollUpdate_when_mono c f v :
  (∀ v, needsRollUpdate v = true → needsRollUpdate (f v) = true) →
  needsRollUpdate v = true → needsRollUpdate (when c f v) = true.
Proof. intros Hf Hv. unfold when. destruct c; auto. Qed.

Lemma needsReplace_when_mono c f v :
  (∀ v, needsReplace v = true → needsReplace (f v) = true) →
  needsReplace v = true → needsReplace (when c f v) = true.
Proof. intros Hf Hv. unfold when. destruct c; auto. Qed.

Lemma needsRollUpdate_when_set c f v :
  c = true → (∀ v, needsRollUpdate (f v) = true) →
  needsRollUpdate (when c f v) = true.
Proof. intros -> Hf. apply Hf. Qed.

Lemma needsReplace_when_set c f v :
  c = true → (∀ v, needsReplace (f v) = true) →
  needsReplace (when c f v) = true.
Proof. intros -> Hf. apply Hf. Qed.

(** The loop over the templates returns only if the desired object has
    a template for every index of the live one. *)
Lemma compareVolumeClaimTemplates_Val i todo tpls v v' :
  compareVolumeClaimTemplates i todo tpls v = Val v' →
  todo = [] ∨ (i + length todo ≤ length tpls)%nat.
Proof.
  revert i v. induction todo as [|t1 todo IH]; intros i v; simpl; [by left|].
  unfold index. destruct (tpls !! i) as [t2|] eqn:Hi; simpl; [|done].
  apply lookup_lt_Some in Hi.
  case_bool_decide; intros [->|?]%IH; right; simpl; lia.
Qed.

(** On a comparable pair the differ returns. *)
Lemma compareStatefulSetWith_comparable cur new :
  Template_Containers cur ≠ [] → comparable cur new →
  ∃ r, compareStatefulSetWith cur new = Val r.
Proof.
  intros Hc ([r1 Hr1] & [r2 Hr2] & [g1 Hg1] & [g2 Hg2] & Hlen & Hn).
  unfold compareStatefulSetWith. rewrite Hr1, Hr2, Hg1, Hg2.
  cbn [deref mbind res_bind mret res_ret].
  rewrite bool_decide_false by (by destruct (Template_Containers cur)).
  match goal with
  | |- context [compareVolumeClaimTemplates 0 ?t ?n ?v] =>
      destruct (compareVolumeClaimTemplates_returns 0 t n v Hlen) as [v' ->]
  end.
  destruct (Template_Containers cur) as [|c1 cs1]; [done|].
  destruct (Template_Containers new) as [|c2 cs2]; [done|].
  by eexists.
Qed.

(** X3. With a container in the live object, the differ returns a
    result exactly on the pairs that are comparable: replica counts and
    grace periods set in both objects, a volume claim template in the
    desired object for every one of the live object, and a container in
    the desired object.  On every other pair it panics. *)
Theorem compareStatefulSetWith_returns_iff cur new :
  Template_Containers cur ≠ [] →
  (∃ r, compareStatefulSetWith cur new = Val r) ↔ comparable cur new.
Proof.
  intros Hc. split.
  - intros [r Hr]. unfold comparable. revert Hr. unfold compareStatefulSetWith.
    destruct (Spec_Replicas cur) as [r1|]; [|done].
    destruct (Spec_Replicas new) as [r2|]; [|done].
    cbn [deref mbind res_bind mret res_ret].
    rewrite bool_decide_false by (by destruct (Template_Containers cur)).
    destruct (Template_TerminationGracePeriodSeconds cur) as [g1|]; [|done].
    destruct (Template_TerminationGracePeriodSeconds new) as [g2|]; [|done].
    cbn [deref mbind res_bind mret res_ret].
    match goal with
    | |- context [compareVolumeClaimTemplates 0 ?t ?n ?v] =>
        destruct (compareVolumeClaimTemplates 0 t n v) as [v'|msg] eqn:Hv;
        [apply compareVolumeClaimTemplates_Val in Hv|done]
    end.
    assert (length (Spec_VolumeClaimTemplates cur)
            ≤ length (Spec_VolumeClaimTemplates new))%nat as Hlen.
    { destruct Hv as [->|?]; simpl; lia. }
    cbn [mbind res_bind].
    destruct (Template_Containers cur) as [|c1 cs1]; [done|].
    destruct (Template_Containers new) as [|c2 cs2]; [done|].
    intros _. repeat split; eauto.
  - by apply compareStatefulSetWith_comparable.
Qed.

(** X4. A comparable object compared with itself matches: no flag is
    set and no reason is given. *)
Theorem compareStatefulSetWith_same cur :
  Template_Containers cur ≠ [] →
  is_Some (Spec_Replicas cur) →
  is_Some (Template_TerminationGracePeriodSeconds cur) →
  compareStatefulSetWith cur cur
  = Val {| match_ := true; replace := false; rollingUpdate := false;
           reasons := [] |}.
Proof.
  intros Hc [r1 Hr1] [g1 Hg1]. unfold compareStatefulSetWith, DeepEqual.
  rewrite Hr1, Hg1. cbn [deref mbind res_bind mret res_ret].
  rewrite (bool_decide_false (length _ = 0%nat))
    by (by destruct (Template_Containers cur)).
  rewrite !(bool_decide_false (_ ≠ _)) by (intros ?; done).
  rewrite !(bool_decide_true (_ = _ :> option (gmap string string))) by done.
  cbn [when negb].
  rewrite (compareVolumeClaimTemplates_same []).
  destruct (Template_Containers cur) as [|c1 cs1]; [done|].
  cbn [mbind res_bind mret res_ret index lookup list_lookup].
  rewrite !(bool_decide_false (_ ≠ _)) by (intros ?; done).
  rewrite !bool_decide_true by done.
  rewrite compareResources_refl. done.
Qed.

(** X5. On a comparable pair with a container in the live object, a
    difference in the service account, the termination grace period, the
    template labels or the template annotations asks for a replacement
    and for a rolling update, and the pair does not match; nothing later
    in the comparison takes this back. *)
Theorem compareStatefulSetWith_structural cur new :
  Template_Containers cur ≠ [] → comparable cur new →
  Template_ServiceAccountName cur ≠ Template_ServiceAccountName new
  ∨ Template_TerminationGracePeriodSeconds cur
    ≠ Template_TerminationGracePeriodSeconds new
  ∨ Template_Labels cur ≠ Template_Labels new
  ∨ Template_Annotations cur ≠ Template_Annotations new →
  ∃ r, compareStatefulSetWith cur new = Val r
       ∧ replace r = true ∧ rollingUpdate r = true ∧ match_ r = false.
Proof.
  intros Hc ([r1 Hr1] & [r2 Hr2] & [g1 Hg1] & [g2 Hg2] & Hlen & Hn) Hd.
  unfold compareStatefulSetWith. rewrite Hr1, Hr2, Hg1, Hg2.
  rewrite Hg1, Hg2 in Hd.
  cbn [deref mbind res_bind mret res_ret].
  rewrite bool_decide_false by (by destruct (Template_Containers cur)).
  match goal with
  | |- context [compareVolumeClaimTemplates 0 ?t ?n ?v] =>
      destruct (compareVolumeClaimTemplates_returns 0 t n v Hlen) as [v' Hv'];
      rewrite Hv'; apply compareVolumeClaimTemplates_keeps in Hv' as (_ & Hu & Hr);
      assert (needsRollUpdate v = true ∧ needsReplace v = true) as [Hroll Hrep]
  end.
  { assert (bool_decide (Template_ServiceAccountName cur
                         ≠ Template_ServiceAccountName new) = true
            ∨ bool_decide (g1 ≠ g2) = true
            ∨ negb (DeepEqual (Template_Labels cur) (Template_Labels new)) = true
            ∨ negb (DeepEqual (Template_Annotations cur)
                      (Template_Annotations new)) = true) as Hb.
    { unfold DeepEqual. destruct Hd as [Hd|[Hd|[Hd|Hd]]].
      - left. by apply bool_decide_eq_true.
      - right; left. apply bool_decide_eq_true. congruence.
      - right; right; left. by rewrite bool_decide_false.
      - right; right; right. by rewrite bool_decide_false. }
    split.
    - destruct Hb as [Hb|[Hb|[Hb|Hb]]];
        repeat first
          [ apply needsRollUpdate_when_set; [exact Hb|done]
          | apply needsRollUpdate_when_mono; [done|] ].
    - destruct Hb as [Hb|[Hb|[Hb|Hb]]];
        repeat first
          [ apply needsReplace_when_set; [exact Hb|done]
          | apply needsReplace_when_mono; [done|] ]. }
  rewrite Hroll in Hu. specialize (Hr Hrep).
  destruct (Template_Containers cur) as [|c1 cs1]; [done|].
  destruct (Template_Containers new) as [|c2 cs2]; [done|].
  cbn [mbind res_bind mret res_ret index lookup list_lookup].
  eexists. split; [done|]. cbn [match_ rollingUpdate replace].
  match goal with
  | |- context [when (needsRollUpdate ?v || needsReplace ?v) (set_match false) ?v] =>
      destruct (final_when v) as (-> & -> & ->)
  end.
  rewrite !needsRollUpdate_when_roll, !needsReplace_when_roll, Hu, Hr.
  by rewrite !orb_true_r.
Qed.

Lemma quiet_when c s g v :
  (∀ v, ¬ (v_match (g v) = true ∧ needsRollUpdate (g v) = false
           ∧ needsReplace (g v) = false)) →
  quiet v → quiet (when c (λ v, add_reason s (g v)) v).
Proof.
  intros Hg Hv. destruct c; [|done]. unfold when, quiet. simpl. split.
  - by intros ?%app_eq_nil%proj2.
  - intros ?. by destruct (Hg v).
Qed.

Lemma quiet_compareVolumeClaimTemplates i todo tpls v v' :
  compareVolumeClaimTemplates i todo tpls v = Val v' → quiet v → quiet v'.
Proof.
  revert i v. induction todo as [|t1 todo IH]; intros i v; simpl.
  - by intros [= <-].
  - unfold index. destruct (tpls !! i) as [t2|]; simpl; [|done].
    case_bool_decide.
    + intros Hv' Hq. eapply IH; [done|].
      apply (quiet_when true _ set_needsReplace); [|done]. by intros ? (_ & _ & ?).
    + intros Hv' Hq. eapply IH; [done|].
      apply (quiet_when _ _ set_needsReplace); [by intros ? (_ & _ & ?)|].
      apply (quiet_when _ _ set_needsReplace); [by intros ? (_ & _ & ?)|done].
Qed.

(** X6. With a container in the live object, the result matches exactly
    when it carries no reason: every finding of the differ comes with a
    reason, and a reason is only given for a finding. *)
Theorem compareStatefulSetWith_reasons cur new r :
  Template_Containers cur ≠ [] →
  compareStatefulSetWith cur new = Val r →
  match_ r = true ↔ reasons r = [].
Proof.
  intros Hc. unfold compareStatefulSetWith.
  destruct (Spec_Replicas cur) as [r1|]; [|done].
  destruct (Spec_Replicas new) as [r2|]; [|done].
  cbn [deref mbind res_bind mret res_ret].
  rewrite bool_decide_false by (by destruct (Template_Containers cur)).
  destruct (Template_TerminationGracePeriodSeconds cur) as [g1|]; [|done].
  destruct (Template_TerminationGracePeriodSeconds new) as [g2|]; [|done].
  cbn [deref mbind res_bind mret res_ret].
  match goal with
  | |- context [compareVolumeClaimTemplates 0 ?t ?n ?v] =>
      assert (quiet v) as Hq;
      [|destruct (compareVolumeClaimTemplates 0 t n v) as [v'|msg] eqn:Hv;
        [apply (quiet_compareVolumeClaimTemplates _ _ _ _ _ Hv) in Hq|done]]
  end.
  { repeat (apply quiet_when;
            [intros ? (Hm & Hu & Hp); simpl in *; congruence|]).
    done. }
  cbn [mbind res_bind].
  destruct (Template_Containers cur) as [|c1 cs1]; [done|].
  destruct (Template_Containers new) as [|c2 cs2]; [done|].
  cbn [mbind res_bind mret res_ret index lookup list_lookup].
  intros [= <-]. cbn [match_ reasons].
  match goal with
  | |- context [when (needsRollUpdate ?v || needsReplace ?v) (set_match false) ?v] =>
      assert (quiet v) as Hq9;
      [|destruct (final_when v) as (-> & _ & _);
        assert (v_reasons (when (needsRollUpdate v || needsReplace v)
                             (set_match false) v) = v_reasons v) as ->
          by (unfold when; by destruct (_ || _));
        unfold quiet in Hq9; rewrite Hq9;
        destruct (needsRollUpdate v), (needsReplace v), (v_match v); simpl;
        split; try done; by intros (? & ? & ?)]
  end.
  repeat (apply quiet_when;
          [intros ? (Hm & Hu & Hp); simpl in *; congruence|]).
  done.
Qed.

(** A result that matches carries no flag. *)
Lemma compareStatefulSetWith_match_flags cur new r :
  compareStatefulSetWith cur new = Val r → match_ r = true →
  rollingUpdate r = false ∧ replace r = false.
Proof.
  unfold compareStatefulSetWith.
  destruct (Spec_Replicas cur) as [r1|]; [|done].
  destruct (Spec_Replicas new) as [r2|]; [|done].
  cbn [deref mbind res_bind mret res_ret].
  case_bool_decide as Hc; [by intros [= <-]|].
  destruct (Template_TerminationGracePeriodSeconds cur) as [g1|]; [|done].
  destruct (Template_TerminationGracePeriodSeconds new) as [g2|]; [|done].
  cbn [deref mbind res_bind mret res_ret].
  match goal with
  | |- context [compareVolumeClaimTemplates 0 ?t ?n ?v] =>
      destruct (compareVolumeClaimTemplates 0 t n v) as [v'|msg]; [|done]
  end.
  cbn [mbind res_bind].
  destruct (Template_Containers cur) as [|c1 cs1]; [done|].
  destruct (Template_Containers new) as [|c2 cs2]; [done|].
  cbn [mbind res_bind mret res_ret index lookup list_lookup].
  intros [= <-]. cbn [match_ rollingUpdate replace].
  match goal with
  | |- context [when (needsRollUpdate ?v || needsReplace ?v) (set_match false) ?v] =>
      destruct (final_when v) as (-> & -> & ->);
      destruct (needsRollUpdate v), (needsReplace v)
  end; done.
Qed.
End DifferMore.

(** ** Strings *)

Module GoStringsMore.
Import GoStrings GoStringsFacts.

Lemma drop_app_length (a b : string) : drop (String.length a) (a +:+ b) = b.
Proof. induction a as [|c a IH]; [done|]. by rewrite app_cons. Qed.

Lemma drop_split (j : nat) (s : string) :
  (j ≤ String.length s)%nat →
  ∃ pre, s = pre +:+ drop j s ∧ String.length pre = j.
Proof.
  revert s. induction j as [|j IH]; intros s Hj.
  - by exists "".
  - destruct s as [|c s]; simpl in *; [lia|].
    destruct (IH s) as (pre & Hs & Hl); [lia|].
    exists (String c pre). rewrite app_cons, <-Hs. simpl. by rewrite Hl.
Qed.

Lemma length_app (a b : string) :
  String.length (a +:+ b) = (String.length a + String.length b)%nat.
Proof. induction a as [|c a IH]; [done|]. rewrite app_cons. simpl. by rewrite IH. Qed.

(** [LastIndex_go] finds the last place at which [sub] starts. *)
Lemma LastIndex_go_spec (sub s : string) (i acc : Z) :
  (LastIndex_go s sub i acc = acc
   ∧ ∀ j, (j ≤ String.length s)%nat → HasPrefix (drop j s) sub = false)
  ∨ ∃ j : nat,
      LastIndex_go s sub i acc = i + Z.of_nat j
      ∧ (j ≤ String.length s)%nat
      ∧ HasPrefix (drop j s) sub = true
      ∧ ∀ j', (j < j' ≤ String.length s)%nat → HasPrefix (drop j' s) sub = false.
Proof.
  revert i acc. induction s as [|a s IH]; intros i acc.
  - simpl. destruct (HasPrefix "" sub) eqn:Hp.
    + right. exists 0%nat. repeat split; [lia|done|done|]. intros j'. simpl. lia.
    + left. split; [done|]. intros j Hj. by destruct j.
  - cbn [LastIndex_go].
    destruct (IH (i + 1) (if HasPrefix (String a s) sub then i else acc))
      as [[Hr Hno]|(j & Hr & Hj & Hp & Hlast)].
    + rewrite Hr. destruct (HasPrefix (String a s) sub) eqn:Hp.
      * right. exists 0%nat. repeat split; [lia|simpl; lia|done|].
        intros [|j'] Hj'; [lia|]. simpl in *. apply Hno. lia.
      * left. split; [done|]. intros [|j] Hj; [done|]. simpl in *. apply Hno. lia.
    + right. exists (S j). rewrite Hr. repeat split; [lia|simpl; lia|done|].
      intros [|j'] Hj'; [lia|]. simpl in *. apply Hlast. lia.
Qed.

(** Cutting at the first, and at the last, occurrence of a character. *)
Lemma Contains_head (c : ascii) (s : string) :
  Contains (String c s) (String c "") = true.
Proof. simpl. by rewrite bool_decide_true. Qed.

Lemma Contains_app_r (a b sub : string) :
  Contains b sub = true → Contains (a +:+ b) sub = true.
Proof.
  rewrite !Contains_spec. intros (pre & suf & ->).
  exists (a +:+ pre), suf. by rewrite app_assoc.
Qed.

Lemma Contains_cons_false (c d : ascii) (s : string) :
  Contains (String d s) (String c "") = false →
  d ≠ c ∧ Contains s (String c "") = false.
Proof.
  simpl. intros [H1 H2]%orb_false_iff. split; [|done].
  intros ->. by rewrite bool_decide_true in H1.
Qed.

Lemma cut_first (c : ascii) (s1 r1 s2 r2 : string) :
  Contains s1 (String c "") = false → Contains s2 (String c "") = false →
  s1 +:+ String c r1 = s2 +:+ String c r2 → s1 = s2 ∧ r1 = r2.
Proof.
  revert s2. induction s1 as [|a s1 IH]; intros [|b s2] H1 H2 E.
  - rewrite !app_nil_l in E. by injection E.
  - rewrite app_nil_l, app_cons in E. injection E as -> _.
    by rewrite Contains_head in H2.
  - rewrite app_nil_l, app_cons in E. injection E as -> _.
    by rewrite Contains_head in H1.
  - rewrite !app_cons in E. injection E as -> E.
    apply Contains_cons_false in H1 as [_ H1], H2 as [_ H2].
    destruct (IH s2 H1 H2 E) as [-> ->]. done.
Qed.

Lemma cut_last (c : ascii) (s1 r1 s2 r2 : string) :
  Contains r1 (String c "") = false → Contains r2 (String c "") = false →
  s1 +:+ String c r1 = s2 +:+ String c r2 → s1 = s2 ∧ r1 = r2.
Proof.
  revert s2. induction s1 as [|a s1 IH]; intros [|b s2] H1 H2 E.
  - rewrite !app_nil_l in E. by injection E.
  - rewrite app_nil_l, app_cons in E. injection E as _ ->.
    rewrite Contains_app_r in H1; [done|apply Contains_head].
  - rewrite app_nil_l, app_cons in E. injection E as _ <-.
    rewrite Contains_app_r in H2; [done|apply Contains_head].
  - rewrite !app_cons in E. injection E as -> E.
    destruct (IH s2 H1 H2 E) as [-> ->]. done.
Qed.
End GoStringsMore.

(** X7. A pod event's key determines its pod name and its resource
    version, as long as the resource versions contain no dash and the
    namespaces no slash: under these conditions two events share a queue
    slot only if they agree on both. *)
Theorem podEventKey_injective (e1 e2 : PodEvent) :
  GoStrings.Contains (ResourceVersion e1) "-" = false →
  GoStrings.Contains (ResourceVersion e2) "-" = false →
  GoStrings.Contains (Namespace (PodName e1)) "/" = false →
  GoStrings.Contains (Namespace (PodName e2)) "/" = false →
  podEventKey e1 = podEventKey e2 →
  PodName e1 = PodName e2 ∧ ResourceVersion e1 = ResourceVersion e2.
Proof.
  intros Hr1 Hr2 Hn1 Hn2. unfold podEventKey, NamespacedName_String.
  intros [E ->]%GoStringsMore.cut_last; [|done..].
  apply GoStringsMore.cut_first in E as [En Em]; [|done..].
  split; [|done]. destruct (PodName e1), (PodName e2). simpl in *. congruence.
Qed.

(** ** Volume identifiers and pod names *)

Section VolumeNames.
Context `{K8sTypes} {W : Type} `{!Collaborators (W := W)}.
Import GoStrings GoStringsFacts GoStringsMore.

Lemma drop_add (pre s : string) (n : nat) :
  drop (String.length pre + n) (pre +:+ s) = drop n s.
Proof. induction pre as [|c pre IH]; [done|]. by rewrite app_cons. Qed.

Lemma HasPrefix_drop_Contains (j : nat) (s sub : string) :
  (j ≤ String.length s)%nat → HasPrefix (drop j s) sub = true →
  Contains s sub = true.
Proof.
  intros Hj [t Ht]%HasPrefix_spec.
  destruct (drop_split j s Hj) as (pre & Hs & _).
  apply Contains_spec. exists pre, t. by rewrite <-Ht.
Qed.

(** X8. [getAWSVolumeId] succeeds exactly on the volume ids that
    contain "/vol-", and then returns what follows the slash of the last
    "/vol-": the result starts with "vol-" and holds no further
    "/vol-".  Every other id, the empty one included, gives an error. *)
Theorem getAWSVolumeId_spec (pv : PersistentVolume) (id : string) :
  pv_AWSElasticBlockStore pv = Some id →
  (∀ r, getAWSVolumeId pv = Val (r, None) →
        ∃ pre t, id = pre +:+ "/vol-" +:+ t ∧ r = "vol-" +:+ t
                 ∧ Contains t "/vol-" = false)
  ∧ (Contains id "/vol-" = true → ∃ r, getAWSVolumeId pv = Val (r, None))
  ∧ (Contains id "/vol-" = false → ∃ e, getAWSVolumeId pv = Val ("", Some e)).
Proof.
  intros Hid. unfold getAWSVolumeId, LastIndex. rewrite Hid.
  cbn [deref mbind res_bind mret res_ret].
  case_bool_decide as Hempty.
  { subst id. split; [done|]. split; [done|]. by eexists. }
  destruct (LastIndex_go_spec "/vol-" id 0 (-1))
    as [[-> Hno]|(j & -> & Hj & Hp & Hlast)].
  - simpl. split; [done|]. split; [|by eexists].
    intros (pre & suf & ->)%Contains_spec.
    specialize (Hno (String.length pre)).
    rewrite drop_app_length in Hno.
    rewrite (proj2 (HasPrefix_spec _ _)) in Hno by eauto.
    rewrite length_app in Hno. discriminate Hno. lia.
  - rewrite bool_decide_false by lia.
    replace (Z.to_nat (0 + Z.of_nat j + 1)) with (j + 1)%nat by lia.
    pose proof (HasPrefix_drop_Contains _ _ _ Hj Hp) as Hc.
    destruct (drop_split j id Hj) as (pre & Hs & Hl).
    apply HasPrefix_spec in Hp as [t Ht]. rewrite Ht in Hs. clear Ht.
    subst id. rewrite <-Hl, drop_add.
    change (drop 1 ("/vol-" +:+ t)) with ("vol-" +:+ t).
    split; [|split; [by eexists|by rewrite Hc]].
    intros r [= <-]. exists pre, t. split; [done|]. split; [done|].
    destruct (Contains t "/vol-") eqn:Hct; [|done].
    apply Contains_spec in Hct as (p & q & ->).
    specialize (Hlast (String.length (pre +:+ "/vol-" +:+ p))).
    replace (pre +:+ "/vol-" +:+ p +:+ "/vol-" +:+ q)
      with ((pre +:+ "/vol-" +:+ p) +:+ "/vol-" +:+ q) in Hlast
      by (by rewrite !app_assoc).
    rewrite drop_app_length in Hlast.
    rewrite (proj2 (HasPrefix_spec _ _)) in Hlast by eauto.
    rewrite !length_app in Hlast. simpl in Hlast.
    discriminate Hlast. lia.
Qed.

(** X9. [getPodNameFromPersistentVolume] undoes the naming of the
    claims: for a claim called [DataVolumeName], one more byte, and a
    pod name, it returns the namespace of the claim and that pod name.
    A claim name no longer than [DataVolumeName] makes it panic. *)
Theorem getPodNameFromPersistentVolume_spec (pv : PersistentVolume)
    (ref : NamespacedName) :
  pv_ClaimRef pv = Some ref →
  (∀ c pod, Name ref = DataVolumeName +:+ String c pod →
            getPodNameFromPersistentVolume pv
            = Val {| Namespace := Namespace ref; Name := pod |})
  ∧ ((String.length (Name ref) ≤ String.length DataVolumeName)%nat →
     ∃ msg, getPodNameFromPersistentVolume pv = Panicked msg).
Proof.
  intros Href. unfold getPodNameFromPersistentVolume. rewrite Href.
  cbn [deref mbind res_bind mret res_ret]. split.
  - intros c pod Hn. rewrite Hn.
    rewrite bool_decide_false by (rewrite length_app; simpl; lia).
    do 2 f_equal.
    change (String c pod) with (String c "" +:+ pod). rewrite <-app_assoc.
    replace (String.length DataVolumeName + 1)%nat
      with (String.length (DataVolumeName +:+ String c "")).
    + apply drop_app_length.
    + rewrite length_app. simpl. lia.
  - intros Hlen. rewrite bool_decide_true by lia. by eexists.
Qed.
End VolumeNames.

(** ** The pod-event queue *)

Section QueueMore.
Context `{K8sTypes} {W : Type} `{!Collaborators (W := W)}.

Local Abbreviation St := (St (W := W)).

(** X10. [ReceivePodEvent] keeps the queue well formed (the queued keys
    are the keys of the stored events, each once), stores the event
    under its key, and touches the order of the queue only to append a
    key that was not there: an event whose key is queued takes the place
    of the stored one and the queue stays as it is. *)
Theorem ReceivePodEvent_spec (event : PodEvent) (st : St) :
  FIFO_wf (podEventsQueue (cl st)) →
  ∃ st',
    ReceivePodEvent event st = (Val (), st')
    ∧ trace st' = trace st
    ∧ FIFO_wf (podEventsQueue (cl st'))
    ∧ items (podEventsQueue (cl st')) !! podEventKey event = Some event
    ∧ (∀ k, k ≠ podEventKey event →
            items (podEventsQueue (cl st')) !! k
            = items (podEventsQueue (cl st)) !! k)
    ∧ (podEventKey event ∈ queue (podEventsQueue (cl st)) →
       queue (podEventsQueue (cl st')) = queue (podEventsQueue (cl st)))
    ∧ (podEventKey event ∉ queue (podEventsQueue (cl st)) →
       queue (podEventsQueue (cl st'))
       = queue (podEventsQueue (cl st)) ++ [podEventKey event]).
Proof.
  intros [Hnd Hdom]. eexists. split; [done|]. split; [done|].
  cbn [cl podEventsQueue set_podEventsQueue]. unfold FIFO_Add.
  cbn [items queue].
  set (f := podEventsQueue (cl st)) in *. set (id := podEventKey event).
  split; [|split; [apply lookup_insert_eq|split;
    [by intros k Hk; rewrite lookup_insert_ne|split]]].
  - case_bool_decide as Hin; split; cbn [items queue].
    + done.
    + intros k. rewrite Hdom. destruct (decide (k = id)) as [->|Hne].
      * rewrite lookup_insert_eq. split; [by eexists|done].
      * by rewrite lookup_insert_ne.
    + apply NoDup_app. split; [done|]. split; [|apply NoDup_singleton].
      intros k Hk ->%list_elem_of_singleton. by apply Hin, Hdom.
    + intros k. rewrite elem_of_app, list_elem_of_singleton, Hdom.
      destruct (decide (k = id)) as [->|Hne].
      * rewrite lookup_insert_eq. split; [by eexists|by right].
      * rewrite lookup_insert_ne by done. split; [by intros [?|?]|by left].
  - intros Hin%Hdom. by rewrite bool_decide_true.
  - intros Hin. rewrite bool_decide_false; [done|]. by rewrite <-Hdom.
Qed.
End QueueMore.

(** ** The role model *)

Section RolesMore.
Context `{K8sTypes} {W : Type} `{!Collaborators (W := W)}.

Local Abbreviation M := (M (W := W)).
Local Abbreviation St := (St (W := W)).
Local Abbreviation Cluster := (Cluster (W := W)).
Local Abbreviation users_only := (users_only (W := W)).

Lemma bind_run {A B} (m : M A) (k : A → M B) st a st1 :
  m st = (Val a, st1) → (m ≫= k) st = k a st1.
Proof. intros E. unfold mbind, M_bind. by rewrite E. Qed.

Lemma set_pgUsers_frame pg2 w2 pg w (c : Cluster) :
  set_pgUsers pg2 (set_world w2 (set_pgUsers pg (set_world w c)))
  = set_pgUsers pg2 (set_world w2 c).
Proof. by destruct c. Qed.

Lemma set_pgUsers_id (c : Cluster) :
  c = set_pgUsers (pgUsers c) (set_world (world c) c).
Proof. by destruct c. Qed.

Lemma users_only_ret {A} (a : A) : users_only (mret a : M A).
Proof.
  intros st. exists a, st. split; [done|]. split; [done|].
  eexists _, _. apply set_pgUsers_id.
Qed.

Lemma users_only_bind {A B} (m : M A) (k : A → M B) :
  users_only m → (∀ a, users_only (k a)) → users_only (m ≫= k).
Proof.
  intros Hm Hk st. destruct (Hm st) as (a & st1 & E & Ht & pg & w & Hc).
  destruct (Hk a st1) as (b & st2 & E2 & Ht2 & pg2 & w2 & Hc2).
  exists b, st2. rewrite (bind_run _ _ _ _ _ E). split; [done|].
  split; [congruence|]. exists pg2, w2. by rewrite Hc2, Hc, set_pgUsers_frame.
Qed.

Lemma users_only_randomPassword : users_only randomPassword.
Proof.
  intros st. unfold randomPassword, callW.
  destruct (RandomPassword PasswordLength (world (cl st))) as [pw w].
  eexists _, _. split; [done|]. split; [done|].
  exists (pgUsers (cl st)), w. simpl. by destruct (cl st).
Qed.

Lemma users_only_insert (f : Cluster → gmap string PgUser) :
  users_only (modify (λ c, set_pgUsers (f c) c)).
Proof.
  intros st. eexists _, _. split; [done|]. split; [done|].
  exists (f (cl st)), (world (cl st)). simpl. by destruct (cl st).
Qed.

Lemma users_only_initRobotUsers_range todo :
  users_only (initRobotUsers_range todo).
Proof.
  induction todo as [|[u fl] todo IH]; simpl; [apply users_only_ret|].
  destruct (negb _); [apply users_only_ret|].
  destruct (normalizeUserFlags fl) as [flags [e|]]; [apply users_only_ret|].
  apply users_only_bind; [apply users_only_randomPassword|]. intros pw.
  apply users_only_bind; [apply users_only_insert|done].
Qed.

Lemma users_only_initInfrastructureRoles_range todo :
  users_only (initInfrastructureRoles_range todo).
Proof.
  induction todo as [|[u d] todo IH]; simpl; [apply users_only_ret|].
  destruct (negb _); [apply users_only_ret|].
  destruct (normalizeUserFlags _) as [flags [e|]]; [apply users_only_ret|].
  apply users_only_bind; [apply users_only_insert|done].
Qed.

Lemma users_only_initHumanUsers_range members :
  users_only (initHumanUsers_range members).
Proof.
  induction members as [|u members IH]; simpl; [apply users_only_ret|].
  apply users_only_bind; [apply users_only_insert|done].
Qed.

Lemma users_only_get : users_only (get : M Cluster).
Proof.
  intros st. eexists _, _. split; [done|]. split; [done|].
  eexists _, _. apply set_pgUsers_id.
Qed.

Lemma users_only_initRobotUsers : users_only initRobotUsers.
Proof.
  apply users_only_bind; [apply users_only_get|].
  intros c. apply users_only_initRobotUsers_range.
Qed.

Lemma users_only_initInfrastructureRoles : users_only initInfrastructureRoles.
Proof.
  apply users_only_bind; [apply users_only_get|].
  intros c. apply users_only_initInfrastructureRoles_range.
Qed.

Lemma users_only_initHumanUsers : users_only initHumanUsers.
Proof.
  apply users_only_bind.
  - intros st. unfold callR. destruct (getTeamMembers (cl st)) as [r w].
    eexists _, _. split; [done|]. split; [done|].
    exists (pgUsers (cl st)), w. simpl. by destruct (cl st).
  - intros [members [e|]]; [apply users_only_ret|].
    apply users_only_bind; [apply users_only_initHumanUsers_range|].
    intros _. apply users_only_ret.
Qed.

(** The keys that [range] yields are the keys of the map, each once. *)
Lemma rangeOrder_keys {V} (m : gmap string V) :
  (∀ V (m : gmap string V), rangeOrder V m ≡ₚ map_to_list m) →
  NoDup (rangeOrder V m).*1
  ∧ (∀ k v, (k, v) ∈ rangeOrder V m ↔ m !! k = Some v)
  ∧ (∀ k, k ∉ (rangeOrder V m).*1 ↔ m !! k = None).
Proof.
  intros Hperm. split; [|split].
  - rewrite Hperm. apply NoDup_fst_map_to_list.
  - intros k v. rewrite Hperm. apply elem_of_map_to_list.
  - intros k. rewrite Hperm, list_elem_of_fmap. split.
    + intros Hn. destruct (m !! k) as [v|] eqn:Hk; [|done].
      destruct Hn. exists (k, v). split; [done|]. by apply elem_of_map_to_list.
    + intros Hk ([k' v] & -> & Hin%elem_of_map_to_list). simpl in *. congruence.
Qed.



Lemma initInfrastructureRoles_range_spec todo (st : St) :
  NoDup todo.*1 →
  ∃ err st',
    initInfrastructureRoles_range todo st = (Val err, st')
    ∧ (err = None ↔
       Forall (λ ud, isValidUsername ud.1 = true
                     ∧ (normalizeUserFlags (pg_Flags ud.2)).2 = None) todo)
    ∧ (err = None → ∀ u data, (u, data) ∈ todo →
         pgUsers (cl st') !! u = Some (infrastructureRoleStored data))
    ∧ (∀ u, u ∉ todo.*1 → pgUsers (cl st') !! u = pgUsers (cl st) !! u).
Proof.
  revert st. induction todo as [|[u data] todo IH]; intros st Hnd; simpl.
  { eexists _, _. split; [done|]. split; [done|]. split; [|done].
    intros _ ? ? ?%elem_of_nil. done. }
  apply NoDup_cons in Hnd as [Hu Hnd].
  destruct (isValidUsername u) eqn:Hvalid; simpl.
  2:{ eexists _, _. split; [done|]. split; [|split; [done|done]].
      split; [done|]. intros [[? _] _]%Forall_cons. simpl in *. congruence. }
  destruct (normalizeUserFlags (pg_Flags data)) as [flags [e|]] eqn:Hnorm.
  { eexists _, _. split; [done|]. split; [|split; [done|done]].
    split; [done|]. intros [[_ ?] _]%Forall_cons. simpl in *.
    rewrite Hnorm in *. simpl in *. congruence. }
  unfold modify, mbind at 1, M_bind at 1. simpl.
  match goal with
  | |- context [initInfrastructureRoles_range todo ?s] =>
      destruct (IH s Hnd) as (err & st' & -> & Herr & Hin & Hout)
  end.
  exists err, st'. split; [done|]. simpl in Hout. split; [|split].
  - rewrite Herr, Forall_cons. simpl. rewrite Hnorm. simpl. tauto.
  - intros He u' data' [[= -> ->]|Hin']%elem_of_cons.
    + rewrite (Hout u Hu), lookup_insert_eq.
      unfold infrastructureRoleStored. by rewrite Hnorm.
    + by apply Hin.
  - intros u' [Hne Hu']%not_elem_of_cons.
    rewrite (Hout u' Hu'). by rewrite lookup_insert_ne.
Qed.

(** X12. [initInfrastructureRoles] succeeds exactly when every name
    under which the operator configures a role is valid and the flags of
    each role normalise.  After a success each of these names holds the
    configured role with its own name, password and groups, and with the
    normalised flags.  In every case a name that is not configured keeps
    the entry it had. *)
Theorem initInfrastructureRoles_spec (st : St) :
  (∀ V (m : gmap string V), rangeOrder V m ≡ₚ map_to_list m) →
  ∃ err st',
    initInfrastructureRoles st = (Val err, st')
    ∧ (err = None ↔
       ∀ u data, InfrastructureRoles (cl st) !! u = Some data →
                 isValidUsername u = true
                 ∧ (normalizeUserFlags (pg_Flags data)).2 = None)
    ∧ (err = None → ∀ u data, InfrastructureRoles (cl st) !! u = Some data →
         pgUsers (cl st') !! u = Some (infrastructureRoleStored data))
    ∧ (∀ u, InfrastructureRoles (cl st) !! u = None →
            pgUsers (cl st') !! u = pgUsers (cl st) !! u).
Proof.
  intros Hperm.
  destruct (rangeOrder_keys (InfrastructureRoles (cl st)) Hperm)
    as (Hnd & Hin & Hout).
  destruct (initInfrastructureRoles_range_spec _ st Hnd)
    as (err & st' & E & Herr & Hins & Houts).
  exists err, st'. split; [done|]. split; [|split].
  - rewrite Herr, Forall_forall. split.
    + intros Hall u data Hu. by apply (Hall (u, data)), Hin.
    + intros Hall [u data] Hu%Hin. by apply Hall.
  - intros He u data Hu. apply (Hins He). by apply Hin.
  - intros u Hu. apply Houts. by apply Hout.
Qed.

Lemma initHumanUsers_range_spec members (st : St) :
  ∃ st',
    initHumanUsers_range members st = (Val (), st')
    ∧ (∃ pg, cl st' = set_pgUsers pg (cl st))
    ∧ (∀ u, u ∈ members →
            pgUsers (cl st') !! u = Some (humanRole u (PamRoleName (cl st))))
    ∧ (∀ u, u ∉ members → pgUsers (cl st') !! u = pgUsers (cl st) !! u).
Proof.
  revert st. induction members as [|m members IH]; intros st; simpl.
  { exists st. split; [done|]. split; [exists (pgUsers (cl st)); by destruct (cl st)|].
    split; [|done]. by intros ? ?%elem_of_nil. }
  unfold modify, mbind, M_bind. simpl.
  match goal with
  | |- context [initHumanUsers_range members ?s] =>
      destruct (IH s) as (st' & -> & [pg Hc] & Hin & Hout)
  end.
  simpl in *. exists st'. split; [done|]. split; [|split].
  - exists pg. rewrite Hc. by destruct (cl st).
  - intros u Hu. destruct (decide (u ∈ members)) as [Hm|Hm].
    + rewrite (Hin u Hm). by destruct (cl st).
    + apply elem_of_cons in Hu as [->|?]; [|done].
      by rewrite (Hout m Hm), lookup_insert_eq.
  - intros u [Hne Hu]%not_elem_of_cons.
    by rewrite (Hout u Hu), lookup_insert_ne.
Qed.

Lemma initSystemUsers_run (st : St) :
  let d1 := RandomPassword PasswordLength (world (cl st)) in
  let d2 := RandomPassword PasswordLength d1.2 in
  let sys :=
    <[ReplicationUserKeyName :=
        {| pg_Name := ReplicationUsername (cl st); pg_Password := d2.1;
           pg_Flags := []; pg_MemberOf := [] |}]>
      (<[SuperuserKeyName :=
           {| pg_Name := SuperUsername (cl st); pg_Password := d1.1;
              pg_Flags := []; pg_MemberOf := [] |}]>
         (systemUsers (cl st))) in
  initSystemUsers st
  = (Val (), {| cl := set_systemUsers sys (set_world d2.2 (cl st));
                trace := trace st |}).
Proof.
  unfold initSystemUsers, randomPassword, callW, modify, mbind, M_bind. simpl.
  destruct (RandomPassword PasswordLength (world (cl st))) as [pw1 w1]. simpl.
  destruct (RandomPassword PasswordLength w1) as [pw2 w2]. simpl.
  first [done | do 2 f_equal; by destruct (cl st)].
Qed.

(** X13. Whatever else happens in [initUsers], it records the two
    system users: afterwards [systemUsers] is what it was, with the
    superuser under [SuperuserKeyName] and the replication user under
    [ReplicationUserKeyName], carrying the configured names and the
    first two passwords drawn.  No call is recorded, and nothing of the
    cluster changes but the two user maps and the outside world. *)
Theorem initUsers_systemUsers (st : St) :
  ∃ err st' pg w,
    initUsers st = (Val err, st')
    ∧ trace st' = trace st
    ∧ let d1 := RandomPassword PasswordLength (world (cl st)) in
      let d2 := RandomPassword PasswordLength d1.2 in
      let sys :=
        <[ReplicationUserKeyName :=
            {| pg_Name := ReplicationUsername (cl st); pg_Password := d2.1;
               pg_Flags := []; pg_MemberOf := [] |}]>
          (<[SuperuserKeyName :=
               {| pg_Name := SuperUsername (cl st); pg_Password := d1.1;
                  pg_Flags := []; pg_MemberOf := [] |}]>
             (systemUsers (cl st))) in
      cl st' = set_pgUsers pg (set_systemUsers sys (set_world w (cl st))).
Proof.
  assert (users_only
            (err ← initInfrastructureRoles;
             if err is Some e
             then mret (Some ("could not init infrastructure roles: " +:+ e))
             else err ← initRobotUsers;
                  if err is Some e
                  then mret (Some ("could not init robot users: " +:+ e))
                  else err ← initHumanUsers;
                       if err is Some e
                       then mret (Some ("could not init human users: " +:+ e))
                       else mret None)) as Hrest.
  { apply users_only_bind; [apply users_only_initInfrastructureRoles|].
    intros [e|]; [apply users_only_ret|].
    apply users_only_bind; [apply users_only_initRobotUsers|].
    intros [e|]; [apply users_only_ret|].
    apply users_only_bind; [apply users_only_initHumanUsers|].
    intros [e|]; apply users_only_ret. }
  unfold initUsers. rewrite (bind_run _ _ _ _ _ (initSystemUsers_run st)).
  match goal with
  | |- context [(initInfrastructureRoles ≫= ?k) ?s] =>
      destruct (Hrest s) as (err & st' & E & Ht & pg & w & Hc)
  end.
  exists err, st', pg, w. split; [exact E|]. split; [done|].
  rewrite Hc. simpl. by destruct (cl st).
Qed.

(** X14. The team wins: when [initUsers] succeeds, every member of the
    team holds the human role under its name (login and superuser
    flags, member of the PAM role, no password), also when an
    infrastructure role or a robot user has the same name. *)
Theorem initUsers_humans (st st' : St) (members : list string) :
  (∀ c : Cluster, Spec c = Spec (cl st) →
                  (getTeamMembers c).1 = (members, None)) →
  initUsers st = (Val None, st') →
  ∀ u, u ∈ members →
       pgUsers (cl st') !! u = Some (humanRole u (PamRoleName (cl st))).
Proof.
  intros Hteam. unfold initUsers.
  rewrite (bind_run _ _ _ _ _ (initSystemUsers_run st)).
  match goal with
  | |- context [(initInfrastructureRoles ≫= ?k) ?s] =>
      destruct (users_only_initInfrastructureRoles s)
        as (e2 & st2 & E2 & _ & pg2 & w2 & Hc2)
  end.
  rewrite (bind_run _ _ _ _ _ E2). destruct e2 as [e|]; [done|].
  destruct (users_only_initRobotUsers st2) as (e3 & st3 & E3 & _ & pg3 & w3 & Hc3).
  rewrite (bind_run _ _ _ _ _ E3). destruct e3 as [e|]; [done|].
  assert (Spec (cl st3) = Spec (cl st)
          ∧ PamRoleName (cl st3) = PamRoleName (cl st)) as [Hspec Hpam].
  { rewrite Hc3, Hc2. simpl. by destruct (cl st). }
  unfold initHumanUsers, callR. unfold mbind at 1 2, M_bind at 1 2.
  specialize (Hteam (cl st3) Hspec).
  destruct (getTeamMembers (cl st3)) as [[ms e] w4]. simpl in Hteam.
  injection Hteam as -> ->. simpl.
  destruct (initHumanUsers_range_spec members
              {| cl := set_world w4 (cl st3); trace := trace st3 |})
    as (st4 & E4 & _ & Hin & _).
  rewrite (bind_run _ _ _ _ _ E4). simpl. intros [= <-] u Hu.
  rewrite (Hin u Hu). simpl. by rewrite Hpam.
Qed.
End RolesMore.

(** ** Volumes *)

Section VolumesMore.
Context `{K8sTypes} {W : Type} `{!Collaborators (W := W)}.

Local Abbreviation M := (M (W := W)).
Local Abbreviation St := (St (W := W)).

Lemma bind_run' {A B} (m : M A) (k : A → M B) st a st1 :
  m st = (Val a, st1) → (m ≫= k) st = k a st1.
Proof. intros E. unfold mbind, M_bind. by rewrite E. Qed.

Lemma setCapacity_capacityOf q pv pv' :
  setCapacity q pv = Val pv' → capacityOf pv' = q.
Proof.
  unfold setCapacity, capacityOf, quantityAt.
  destruct (pv_Capacity pv) as [m|]; [|done]. intros [= <-]. simpl.
  by rewrite lookup_insert_eq.
Qed.

(** A round that lets the loop go on either skipped the volume or
    resized it. *)
Lemma updateVolume_None q n pv (st : St) pv' st' :
  updateVolume q n pv st = (Val (None, pv'), st') →
  ∃ seg, trace st' = trace st ++ seg ∧ volume_done q n pv seg.
Proof.
  unfold volume_done, updateVolume. case_bool_decide as Hsize.
  2:{ intros [= <- <-]. exists []. rewrite app_nil_r. by split. }
  assert (∀ seg, resized q n pv seg →
            (GiB (Quantity_ScaledValue0 (capacityOf pv)) = n → seg = [])
            ∧ (GiB (Quantity_ScaledValue0 (capacityOf pv)) ≠ n →
               resized q n pv seg)) as Hwrap by (intros; split; done).
  unfold mbind at 1, M_bind at 1, liftRes.
  destruct (getAWSVolumeId pv) as [[id [e|]]|msg] eqn:Hid; simpl; [done| |done].
  unfold mbind at 1, M_bind at 1, callW.
  destruct (ResizeVolume id n (world (cl st))) as [err1 w1]. simpl.
  destruct err1 as [e1|]; simpl; [done|].
  unfold mbind at 1, M_bind at 1, emit. simpl.
  unfold mbind at 1, M_bind at 1.
  destruct (getPodNameFromPersistentVolume pv) as [pod|msg] eqn:Hpod; simpl;
    [|done].
  unfold mbind at 1, M_bind at 1.
  match goal with
  | |- context [resizeVolumeFS pod ?s] =>
      destruct (ExecCommand pod resize2fs (cl s)) as [[out err2] w2] eqn:Hex;
      rewrite (resizeVolumeFS_run pod s out err2 w2 Hex)
  end.
  simpl. destruct err2 as [e|]; simpl; [done|].
  destruct (resize2fsSucceeded out) eqn:Hok; simpl; [|done].
  unfold mbind at 1, M_bind at 1.
  destruct (setCapacity q pv) as [pv1|msg] eqn:Hcap; simpl; [|done].
  unfold mbind at 1, M_bind at 1, callW. simpl.
  destruct (updatePersistentVolume pv1 w2) as [err3 w3]. simpl.
  destruct err3 as [e|]; simpl; [done|]. intros [= <- <-]. simpl.
  eexists [_; _; _]. rewrite <-!app_assoc. split; [done|].
  apply Hwrap. exists id, pod, out, pv1.
  repeat split; try done. by eapply setCapacity_capacityOf.
Qed.

Lemma updateVolumes_range_None q n pvs (st : St) pvs' st' :
  updateVolumes_range q n pvs st = (Val (None, pvs'), st') →
  ∃ segs, trace st' = trace st ++ concat segs
          ∧ Forall2 (volume_done q n) pvs segs.
Proof.
  revert st pvs'. induction pvs as [|pv pvs IH]; intros st pvs'; simpl.
  { intros [= <- <-]. exists []. by rewrite app_nil_r. }
  unfold mbind at 1, M_bind at 1.
  destruct (updateVolume q n pv st) as [[[[e|] pv1]|msg] st1] eqn:E1;
    simpl; [done| |done].
  apply updateVolume_None in E1 as (seg & Ht1 & Hseg).
  unfold mbind, M_bind.
  destruct (updateVolumes_range q n pvs st1) as [[[[e|] pvs1]|msg] st2] eqn:E2;
    simpl; [done| |done].
  intros [= <- <-]. apply IH in E2 as (segs & Ht2 & Hsegs).
  exists (seg :: segs). simpl. split; [|by constructor].
  by rewrite Ht2, Ht1, <-app_assoc.
Qed.

(** X15. A run of [updateVolumes] that returns [nil] has brought every
    listed volume to the new size: for each volume whose size in GiB
    differed it made the three calls (EC2, [resize2fs] on the pod, the
    update of the volume object), none of them failed, and the volume
    object it sent has the new quantity as its capacity; of the volumes
    that had the size it asked nothing. *)
Theorem updateVolumes_success newVolume (st st' : St) :
  updateVolumes newVolume st = (Val None, st') →
  let newQuantity := (ParseQuantity (Size newVolume)).1 in
  let newSize := GiB (Quantity_ScaledValue0 newQuantity) in
  let pvs := (listPersistentVolumes (cl st)).1.1 in
  ∃ segs,
    length segs = length pvs
    ∧ trace st' = trace st ++ concat segs
    ∧ ∀ i pv, pvs !! i = Some pv →
        ∃ seg, segs !! i = Some seg
          ∧ (GiB (Quantity_ScaledValue0 (capacityOf pv)) = newSize → seg = [])
          ∧ (GiB (Quantity_ScaledValue0 (capacityOf pv)) ≠ newSize →
             resized newQuantity newSize pv seg).
Proof.
  unfold updateVolumes.
  destruct (ParseQuantity (Size newVolume)) as [q perr]. simpl.
  unfold mbind at 1, M_bind at 1, callR.
  destruct (listPersistentVolumes (cl st)) as [[pvs err] w]. simpl.
  destruct err as [e|]; simpl; [done|].
  unfold mbind at 1, M_bind at 1, callW. simpl.
  destruct (ConnectToEC2 w) as [err w']. simpl.
  destruct err as [e|]; simpl; [done|].
  unfold mbind, M_bind.
  match goal with
  | |- context [updateVolumes_range ?q ?n ?pvs ?s] =>
      destruct (updateVolumes_range q n pvs s) as [[[[e|] pvs1]|msg] st2] eqn:E
  end; simpl; [done| |done].
  intros [= <-]. apply updateVolumes_range_None in E as (segs & Ht & HF).
  exists segs. split; [symmetry; by eapply Forall2_length|]. split; [done|].
  intros i pv Hi.
  destruct (Forall2_lookup_l _ _ _ _ _ HF Hi) as (seg & Hs & Hc).
  exists seg. split; [done|]. apply Hc.
Qed.

Lemma updateVolumes_range_same q n pvs (st : St) :
  Forall (λ pv, GiB (Quantity_ScaledValue0 (capacityOf pv)) = n) pvs →
  updateVolumes_range q n pvs st = (Val (None, pvs), st).
Proof.
  induction 1 as [|pv pvs Hpv _ IH]; simpl; [done|].
  rewrite (bind_run' _ _ _ _ _ (updateVolume_same q n pv st Hpv)).
  by rewrite (bind_run' _ _ _ _ _ IH).
Qed.

(** X16. [updateVolumes] does nothing twice: when every listed volume
    already has the new size in GiB (so also when no volume is listed),
    and the volumes can be listed and EC2 reached, it returns [nil] and
    asks nothing of EC2, of the pods or of the volume objects.  This
    holds whatever [ParseQuantity] reported about the size. *)
Theorem updateVolumes_nothing_to_do newVolume (st : St) pvs w w' :
  listPersistentVolumes (cl st) = ((pvs, None), w) →
  ConnectToEC2 w = (None, w') →
  Forall (λ pv, GiB (Quantity_ScaledValue0 (capacityOf pv))
                = GiB (Quantity_ScaledValue0 (ParseQuantity (Size newVolume)).1))
         pvs →
  updateVolumes newVolume st
  = (Val None, {| cl := set_world w' (set_world w (cl st)); trace := trace st |}).
Proof.
  intros Hlist Hec2 Hall. unfold updateVolumes.
  destruct (ParseQuantity (Size newVolume)) as [q perr]. simpl in *.
  unfold mbind at 1, M_bind at 1, callR. rewrite Hlist. simpl.
  unfold mbind at 1, M_bind at 1, callW. simpl. rewrite Hec2. simpl.
  by rewrite (bind_run' _ _ _ _ _ (updateVolumes_range_same _ _ _ _ Hall)).
Qed.
End VolumesMore.

(** ** The lifecycle operations *)

Section LifecycleMore.
Context `{K8sTypes} {W : Type} `{!Collaborators (W := W)}.

Local Abbreviation M := (M (W := W)).
Local Abbreviation St := (St (W := W)).
Local Abbreviation Cluster := (Cluster (W := W)).
Local Abbreviation silent := (silent (W := W)).
Local Abbreviation users_only := (users_only (W := W)).

Lemma run_bind {A B} (m : M A) (k : A → M B) st a st1 :
  m st = (Val a, st1) → (m ≫= k) st = k a st1.
Proof. intros E. unfold mbind, M_bind. by rewrite E. Qed.

Lemma silent_ret {A} (a : A) : silent (mret a : M A).
Proof. intros st. by exists a, st. Qed.

Lemma silent_bind {A B} (m : M A) (k : A → M B) :
  silent m → (∀ a, silent (k a)) → silent (m ≫= k).
Proof.
  intros Hm Hk st. destruct (Hm st) as (a & st1 & E & Ht).
  destruct (Hk a st1) as (b & st2 & E2 & Ht2).
  exists b, st2. rewrite (run_bind _ _ _ _ _ E). split; [done|]. congruence.
Qed.

Lemma silent_get : silent (get : M Cluster).
Proof. intros st. by eexists _, _. Qed.
Lemma silent_modify f : silent (modify f : M ()).
Proof. intros st. by eexists _, _. Qed.
Lemma silent_callW {A} (f : W → A * W) : silent (callW f).
Proof. intros st. unfold callW. destruct (f _). by eexists _, _. Qed.
Lemma silent_callR {A} (f : Cluster → A * W) : silent (callR f).
Proof. intros st. unfold callR. destruct (f _). by eexists _, _. Qed.
Lemma silent_call {A} (f : Cluster → A * Cluster) : silent (call f).
Proof. intros st. unfold call. destruct (f _). by eexists _, _. Qed.

Lemma users_only_silent {A} (m : M A) : users_only m → silent m.
Proof. intros Hm st. destruct (Hm st) as (a & st' & E & Ht & _). eauto. Qed.

Lemma silent_initUsers : silent initUsers.
Proof.
  unfold initUsers, initSystemUsers, randomPassword.
  repeat first
    [ apply users_only_silent, users_only_initInfrastructureRoles
    | apply users_only_silent, users_only_initRobotUsers
    | apply users_only_silent, users_only_initHumanUsers
    | apply silent_ret | apply silent_modify | apply silent_callW
    | apply silent_bind; [|intros ?]
    | match goal with
      | |- silent (match ?x with _ => _ end) => destruct x
      end ].
Qed.

Lemma setStatus_run (s : PostgresStatus) (st : St) :
  setStatus s st
  = (Val (),
     {| cl := set_world (patchStatus s (world (cl st))).2 (set_Status s (cl st));
        trace := trace st ++ [EvPatchStatus s (patchStatus s (world (cl st))).1] |}).
Proof.
  unfold setStatus, modify, callW, emit, mbind, M_bind. simpl.
  by destruct (patchStatus s (world (cl st))).
Qed.

(** X17. Every run of [Create] returns and patches the status exactly
    twice: first [Creating], then, from the deferred function, [Running]
    or [AddFailed], which is the status the cluster is left with.  No
    other call of [cluster.go] itself is recorded in between. *)
Theorem Create_patches (st : St) :
  ∃ r st' e1 e2 s,
    Create st = (Val r, st')
    ∧ (s = ClusterStatusRunning ∨ s = ClusterStatusAddFailed)
    ∧ Status (cl st') = s
    ∧ trace st' = trace st ++ [EvPatchStatus ClusterStatusCreating e1;
                               EvPatchStatus s e2].
Proof.
  assert (∃ r err st1,
            Create_body st = (Val (r, err), st1)
            ∧ trace st1
              = trace st ++ [EvPatchStatus ClusterStatusCreating
                               (patchStatus ClusterStatusCreating
                                  (world (cl st))).1])
    as (r & err & st1 & Ebody & Ht1).
  { unfold Create_body.
    rewrite (run_bind _ _ _ _ _ (setStatus_run _ st)).
    lazymatch goal with
    | |- context [(call createEndpoint ≫= ?k) ?s] =>
        assert (silent (call createEndpoint ≫= k)) as Hs;
        [|destruct (Hs s) as ([r err] & st1 & E & Ht); by exists r, err, st1]
    end.
    repeat first
      [ apply silent_initUsers
      | apply silent_ret | apply silent_get | apply silent_call
      | apply silent_bind; [|intros ?]
      | match goal with
        | |- silent (match ?x with _ => _ end) => destruct x
        | |- silent (if ?x then _ else _) => destruct x
        end ]. }
  unfold Create. rewrite (run_bind _ _ _ _ _ Ebody).
  destruct err as [e|].
  - rewrite (run_bind _ _ _ _ _ (setStatus_run _ st1)).
    eexists _, _, _, _, ClusterStatusAddFailed.
    split; [done|]. split; [by right|]. split; [done|].
    simpl. by rewrite Ht1, <-app_assoc.
  - rewrite (run_bind _ _ _ _ _ (setStatus_run _ st1)).
    eexists _, _, _, _, ClusterStatusRunning.
    split; [done|]. split; [by left|]. split; [done|].
    simpl. by rewrite Ht1, <-app_assoc.
Qed.

Lemma ends_Running_bind {A} (m : M A) (k : A → M error) :
  (∀ a, ends_Running (k a)) → ends_Running (m ≫= k).
Proof.
  intros Hk st st'. unfold mbind, M_bind.
  destruct (m st) as [[a|msg] st1]; [apply Hk|done].
Qed.

Lemma ends_Running_Some e : ends_Running (mret (Some e) : M error).
Proof. by intros st st'. Qed.

Lemma ends_Running_setStatus :
  ends_Running (setStatus ClusterStatusRunning ≫= λ _, mret None).
Proof.
  intros st st'. rewrite (run_bind _ _ _ _ _ (setStatus_run _ st)).
  intros [= <-]. simpl. split; [done|]. eexists. by rewrite last_snoc.
Qed.

(** X18. [Update] returns [nil] only after it set the status [Running]:
    whenever it returns [nil], the cluster is left [Running] and the
    last call recorded is the patch of that status. *)
Theorem Update_nil_Running newSpec (st st' : St) :
  Update newSpec st = (Val None, st') →
  Status (cl st') = ClusterStatusRunning
  ∧ ∃ e, last (trace st') = Some (EvPatchStatus ClusterStatusRunning e).
Proof.
  revert st st'. change (ends_Running (Update newSpec)). unfold Update.
  repeat first
    [ apply ends_Running_setStatus
    | apply ends_Running_Some
    | apply ends_Running_bind; intros ?
    | match goal with
      | |- ends_Running (mret ?e) => is_var e; destruct e
      | |- ends_Running (match ?x with _ => _ end) => destruct x
      | |- ends_Running (let '(_, _) := ?x in _) => destruct x
      end
    | progress cbv zeta ].
Qed.

Lemma set_Status_twice s2 w2 s1 w1 (c : Cluster) :
  set_world w2 (set_Status s2 (set_world w1 (set_Status s1 c)))
  = set_world w2 (set_Status s2 c).
Proof. by destruct c. Qed.

(** X19. [Update] to a manifest that changes nothing changes nothing:
    when the service generated for the new manifest has the source
    ranges of the live one, the volume of the manifest is the volume of
    the cluster, and the statefulset generated for the manifest matches
    the live one, [Update] returns [nil], patches the status to
    [Updating] and then to [Running], and makes no other call: the
    cluster is as before but for its status. *)
Theorem Update_unchanged newSpec (st : St) ss r :
  let st1 := (setStatus ClusterStatusUpdating st).2 in
  (sameServiceWith (c_Service (cl st))
     (genService (cl st1) (AllowedSourceRanges newSpec))).1 = true →
  sp_Volume newSpec = sp_Volume (Spec (cl st)) →
  genStatefulSet (cl st1) newSpec = (ss, None) →
  compareStatefulSetWith (c_Statefulset (cl st)) ss = Val r →
  match_ r = true →
  ∃ e1 e2 w,
    Update newSpec st
    = (Val None,
       {| cl := set_world w (set_Status ClusterStatusRunning (cl st));
          trace := trace st ++ [EvPatchStatus ClusterStatusUpdating e1;
                                EvPatchStatus ClusterStatusRunning e2] |}).
Proof.
  intros st1. subst st1. rewrite setStatus_run. cbn [snd cl].
  intros Hsvc Hvol Hgen Hcmp Hmatch.
  destruct (compareStatefulSetWith_match_flags _ _ _ Hcmp Hmatch) as [Hroll _].
  unfold Update. rewrite (run_bind _ _ _ _ _ (setStatus_run _ st)).
  unfold get. unfold mbind at 1, M_bind at 1. cbn [cl].
  replace (c_Service (set_world _ (set_Status ClusterStatusUpdating (cl st))))
    with (c_Service (cl st)) by (by destruct (cl st)).
  rewrite Hsvc. cbn [negb].
  unfold mbind at 1, M_bind at 1. cbn [mret M_ret].
  unfold mbind at 1, M_bind at 1. cbn [cl].
  replace (sp_Volume (Spec (set_world _ (set_Status ClusterStatusUpdating (cl st)))))
    with (sp_Volume (Spec (cl st))) by (by destruct (cl st)).
  rewrite Hvol. unfold sameVolumeWith, DeepEqual.
  rewrite bool_decide_true by done. cbn [negb fst].
  unfold mbind at 1, M_bind at 1. cbn [mret M_ret].
  unfold mbind at 1, M_bind at 1. cbn [cl]. rewrite Hgen.
  replace (c_Statefulset (set_world _ (set_Status ClusterStatusUpdating (cl st))))
    with (c_Statefulset (cl st)) by (by destruct (cl st)).
  rewrite Hcmp. unfold liftRes. unfold mbind at 1, M_bind at 1.
  rewrite Hmatch, Hroll. cbn [negb].
  unfold mbind at 1, M_bind at 1. cbn [mret M_ret].
  unfold mbind at 1, M_bind at 1. cbn [mret M_ret].
  rewrite (run_bind _ _ _ _ _ (setStatus_run _ _)).
  cbn [cl trace mret M_ret]. rewrite set_Status_twice, <-app_assoc.
  by eexists _, _, _.
Qed.

Lemma post_bind {A B} (m : M A) (k : A → M B) (Q : B → St → Prop) :
  (∀ a, post (k a) Q) → post (m ≫= k) Q.
Proof.
  intros Hk st b st'. unfold mbind, M_bind.
  destruct (m st) as [[a|msg] st1]; [apply Hk|done].
Qed.

Lemma post_ret {A} (a : A) (Q : A → St → Prop) :
  (∀ st, Q a st) → post (mret a : M A) Q.
Proof. intros HQ st b st' [= <- <-]. apply HQ. Qed.

(** [err := block; if err != nil { return err }; rest] *)
Lemma post_seq (blk rest : M error) (Q : error → St → Prop) :
  post blk (λ r st, r ≠ None → Q r st) → post rest Q →
  post (blk ≫= λ err, if err is Some _ then mret err else rest) Q.
Proof.
  intros Hblk Hrest st b st'. unfold mbind, M_bind.
  destruct (blk st) as [[[e|]|msg] st1] eqn:E; [|apply Hrest|done].
  intros [= <- <-]. by apply (Hblk _ _ _ E).
Qed.

Lemma post_Create_body : post Create_body body_ok.
Proof.
  unfold Create_body.
  repeat first
    [ apply post_bind; intros ?
    | match goal with
      | |- post (mret (_, ?e)) _ => is_var e; destruct e
      | |- post (mret _) _ =>
          apply post_ret; intros ? ? [= <-]; first [by left; eexists|by right; eexists]
      | |- post (mret (None, _)) _ => apply post_ret; by intros ? ?
      | |- post (match ?x with _ => _ end) _ => destruct x
      | |- post (if ?x then _ else _) _ => destruct x
      end
    | progress cbv zeta ].
Qed.

(** X20. An error of [Create] leaves the status [AddFailed], with one
    exception: the error of the database connection.  Every other
    failing step is reported and recorded alike. *)
Theorem Create_error_status (st st' : St) (e : string) :
  Create st = (Val (Some e), st') →
  Status (cl st') = ClusterStatusAddFailed ∨ dbConnectionError e.
Proof.
  unfold Create, mbind at 1, M_bind at 1.
  destruct (Create_body st) as [[[r err]|msg] st1] eqn:Ebody; [|done].
  pose proof (post_Create_body _ _ _ Ebody) as Hok.
  destruct err as [e0|].
  - rewrite (run_bind _ _ _ _ _ (setStatus_run _ st1)). intros [= -> <-].
    by left.
  - rewrite (run_bind _ _ _ _ _ (setStatus_run _ st1)). intros [= -> <-].
    destruct (Hok e eq_refl) as [[? ?]|?]; [done|by right].
Qed.

Lemma post_failed (msg : string) (Q : error → St → Prop) :
  (∀ st, Status (cl st) = ClusterStatusUpdateFailed → Q (Some msg) st) →
  post (setStatus ClusterStatusUpdateFailed ≫= λ _, mret (Some msg)) Q.
Proof.
  intros HQ st b st'. rewrite (run_bind _ _ _ _ _ (setStatus_run _ st)).
  intros [= <- <-]. by apply HQ.
Qed.

Lemma post_Update newSpec : post (Update newSpec) update_ok.
Proof.
  unfold Update.
  repeat first
    [ match goal with
      | |- post (get ≫= _) _ => apply post_bind; intros ?
      | |- post (setStatus _ ≫= λ _, _ ≫= _) _ => apply post_bind; intros ?
      end
    | apply post_seq
    | apply post_failed; intros ? ?; first [by intros _ ? _; left|by intros ? _; left]
    | apply post_bind; intros ?
    | match goal with
      | |- post (mret None) _ => apply post_ret; first [by intros ? ?|by intros ? ? ?]
      | |- post (mret (Some _)) _ =>
          apply post_ret;
          first [ intros ? _ ? [= <-]; right; first [by left; eexists|by right; eexists]
                | intros ? ? [= <-]; right; first [by left; eexists|by right; eexists] ]
      | |- post (match ?x with _ => _ end) _ => destruct x
      | |- post (if ?x then _ else _) _ => destruct x
      | |- post (let '(_, _) := ?x in _) _ => destruct x
      end
    | progress cbv zeta ].
Qed.

(** X21. An error of [Update] leaves the status [UpdateFailed], with
    two exceptions: the error of the volumes and the error of generating
    the statefulset.  The failures of the service update, of the
    statefulset update or replacement and of the recreation of the pods
    are reported and recorded alike. *)
Theorem Update_error_status newSpec (st st' : St) (e : string) :
  Update newSpec st = (Val (Some e), st') →
  Status (cl st') = ClusterStatusUpdateFailed ∨ volumesOrGenerateError e.
Proof. intros E. by apply (post_Update newSpec _ _ _ E). Qed.
End LifecycleMore.

(** * Instances of the further properties *)

Section MoreExampleFacts.
Import Examples MoreExamples.
#[local] Existing Instance exampleTypes.
#[local] Existing Instance exampleCollaborators.

(** X1, an instance: an entry for no memory among the requests of one
    side counts like no entry on the other. *)
Lemma compareResources_pointwise_witness :
  compareResources (Some oneCPU) (Some oneCPUNoMemory) = true
  ∧ quantityAt (Requests oneCPU) "memory"
    = quantityAt (Requests oneCPUNoMemory) "memory".
Proof.
  assert (Requests oneCPU ≠ ∅) as Ha.
  { intros Heq. apply (f_equal (λ m, m !! "cpu")) in Heq. vm_compute in Heq.
    discriminate. }
  assert (Requests oneCPUNoMemory ≠ ∅) as Hb.
  { intros Heq. apply (f_equal (λ m, m !! "cpu")) in Heq. vm_compute in Heq.
    discriminate. }
  assert (compareResources (Some oneCPU) (Some oneCPUNoMemory) = true) as E
    by (vm_compute; reflexivity).
  split; [exact E|].
  apply (proj1 (compareResources_pointwise oneCPU oneCPUNoMemory Ha Hb) E).
Defined.

(** X3, an instance: the live object of the examples against the
    scaled one. *)
Lemma compareStatefulSetWith_returns_iff_witness :
  ∃ r, compareStatefulSetWith exampleStatefulSet scaledStatefulSet = Val r.
Proof.
  apply (proj2 (compareStatefulSetWith_returns_iff exampleStatefulSet
                  scaledStatefulSet ltac:(done))).
  unfold comparable. simpl. repeat split; by eauto.
Defined.

(** X4, an instance: the live object of the examples against itself. *)
Lemma compareStatefulSetWith_same_witness :
  compareStatefulSetWith exampleStatefulSet exampleStatefulSet
  = Val {| match_ := true; replace := false; rollingUpdate := false;
           reasons := [] |}.
Proof.
  apply compareStatefulSetWith_same; [done | by eexists | by eexists].
Defined.

(** X5, an instance: an annotation on the pods of the desired object. *)
Lemma compareStatefulSetWith_structural_witness :
  ∃ r, compareStatefulSetWith exampleStatefulSet annotatedStatefulSet = Val r
       ∧ replace r = true ∧ rollingUpdate r = true ∧ match_ r = false.
Proof.
  apply compareStatefulSetWith_structural.
  - done.
  - unfold comparable. simpl. repeat split; by eauto.
  - right. right. right. discriminate.
Defined.

(** X6, an instance: the scaled object does not match, and a reason is
    given. *)
Lemma compareStatefulSetWith_reasons_witness :
  ∃ r, compareStatefulSetWith exampleStatefulSet scaledStatefulSet = Val r
       ∧ (match_ r = true ↔ reasons r = []).
Proof.
  assert (∃ r, compareStatefulSetWith exampleStatefulSet scaledStatefulSet
               = Val r) as [r E] by (eexists; vm_compute; reflexivity).
  exists r. split; [exact E|].
  apply (compareStatefulSetWith_reasons exampleStatefulSet scaledStatefulSet r
           ltac:(done) E).
Defined.

(** X7, an instance: the addition and the deletion of a pod at one
    resource version. *)
Lemma podEventKey_injective_witness :
  PodName podAdded = PodName podDeleted
  ∧ ResourceVersion podAdded = ResourceVersion podDeleted.
Proof.
  apply podEventKey_injective; reflexivity.
Defined.

(** X8, an instance: the first volume of the examples. *)
Lemma getAWSVolumeId_spec_witness :
  ∃ r, getAWSVolumeId (exampleVolume "acid-test-0" 10) = Val (r, None).
Proof.
  apply (proj1 (proj2 (getAWSVolumeId_spec (exampleVolume "acid-test-0" 10)
                         "aws://eu-central-1b/vol-acid-test-0" eq_refl))).
  reflexivity.
Defined.

(** X9, an instance: the claim "pgdata-acid-test-0" belongs to the pod
    "acid-test-0". *)
Lemma getPodNameFromPersistentVolume_spec_witness :
  getPodNameFromPersistentVolume (exampleVolume "acid-test-0" 10)
  = Val examplePod.
Proof.
  apply (proj1 (getPodNameFromPersistentVolume_spec
                  (exampleVolume "acid-test-0" 10)
                  {| Namespace := "default"; Name := "pgdata-acid-test-0" |}
                  eq_refl) "-"%char "acid-test-0").
  reflexivity.
Defined.

(** X10, an instance: the first event of a cluster. *)
Lemma ReceivePodEvent_spec_witness :
  ∃ st',
    ReceivePodEvent podAdded (exampleState []) = (Val (), st')
    ∧ queue (podEventsQueue (cl st')) = [podEventKey podAdded].
Proof.
  assert (FIFO_wf (podEventsQueue (cl (exampleState [])))) as Hwf.
  { split; [constructor|]. intros k. simpl. rewrite lookup_empty. split.
    - intros Hk. by apply elem_of_nil in Hk.
    - intros [? ?]. discriminate. }
  destruct (ReceivePodEvent_spec podAdded (exampleState []) Hwf)
    as (st' & E & _ & _ & _ & _ & _ & Hnew).
  exists st'. split; [exact E|]. apply Hnew. simpl. apply not_elem_of_nil.
Defined.


(** X12, an instance: the infrastructure role of the examples. *)
Lemma initInfrastructureRoles_spec_witness :
  ∃ err st',
    initInfrastructureRoles (exampleState []) = (Val err, st')
    ∧ pgUsers (cl st') !! "alice" = None.
Proof.
  destruct (initInfrastructureRoles_spec (exampleState []))
    as (err & st' & E & _ & _ & Hother); [intros V m; reflexivity|].
  exists err, st'. split; [exact E|]. by rewrite (Hother "alice").
Defined.

(** X14, an instance: "alice" is a robot user of the manifest and a
    member of the team; she gets the role of a member. *)
Lemma initUsers_humans_witness :
  ∃ st',
    initUsers acidState = (Val None, st')
    ∧ pgUsers (cl st') !! "alice" = Some (humanRole "alice" "zalandos").
Proof.
  assert (∃ st', initUsers acidState = (Val None, st')) as [st' E]
    by (eexists; vm_compute; reflexivity).
  exists st'. split; [exact E|].
  apply (initUsers_humans acidState st' ["alice"; "bob"]).
  - intros c Hc. simpl. rewrite Hc. reflexivity.
  - exact E.
  - apply elem_of_cons. by left.
Defined.

(** X15, an instance: the volumes of the examples, grown to 20Gi. *)
Lemma updateVolumes_success_witness :
  ∃ st' segs,
    updateVolumes (sp_Volume grownSpec) (exampleState []) = (Val None, st')
    ∧ length segs = 2%nat
    ∧ trace st' = concat segs.
Proof.
  assert (∃ st', updateVolumes (sp_Volume grownSpec) (exampleState [])
                 = (Val None, st')) as [st' E]
    by (eexists; vm_compute; reflexivity).
  destruct (updateVolumes_success (sp_Volume grownSpec) (exampleState []) st' E)
    as (segs & Hlen & Htr & _).
  exists st', segs. split; [exact E|]. split; [exact Hlen|exact Htr].
Defined.

(** X16, an instance: both volumes have 20Gi already. *)
Lemma updateVolumes_nothing_to_do_witness :
  (updateVolumes (sp_Volume grownSpec) settledState).1 = Val None
  ∧ trace (updateVolumes (sp_Volume grownSpec) settledState).2 = [].
Proof.
  assert (listPersistentVolumes (cl settledState)
          = (([exampleVolume "acid-test-0" 20; exampleVolume "acid-test-1" 20],
              None), world (cl settledState))) as Hlist
    by (vm_compute; reflexivity).
  assert (ConnectToEC2 (world (cl settledState))
          = (None, world (cl settledState))) as Hec2
    by (vm_compute; reflexivity).
  rewrite (updateVolumes_nothing_to_do (sp_Volume grownSpec) settledState
             _ _ _ Hlist Hec2).
  - split; reflexivity.
  - repeat constructor; vm_compute; reflexivity.
Defined.

(** X18, an instance: the update to the manifest with the larger
    volume. *)
Lemma Update_nil_Running_witness :
  ∃ st',
    Update grownSpec (exampleState []) = (Val None, st')
    ∧ Status (cl st') = ClusterStatusRunning.
Proof.
  assert (∃ st', Update grownSpec (exampleState []) = (Val None, st'))
    as [st' E] by (eexists; vm_compute; reflexivity).
  exists st'. split; [exact E|].
  apply (proj1 (Update_nil_Running grownSpec (exampleState []) st' E)).
Defined.

(** X19, an instance: the update to the manifest the cluster has. *)
Lemma Update_unchanged_witness :
  ∃ st',
    Update exampleSpec (exampleState []) = (Val None, st')
    ∧ c_Statefulset (cl st') = exampleStatefulSet
    ∧ length (trace st') = 2%nat.
Proof.
  destruct (Update_unchanged exampleSpec (exampleState []) exampleStatefulSet
              {| match_ := true; replace := false; rollingUpdate := false;
                 reasons := [] |})
    as (e1 & e2 & w & E).
  - reflexivity.
  - reflexivity.
  - reflexivity.
  - vm_compute. reflexivity.
  - reflexivity.
  - eexists. split; [exact E|]. split; reflexivity.
Defined.

(** X20, an instance: the service cannot be created. *)
Lemma Create_error_status_witness :
  ∃ e st',
    Create (exampleState ["createService"]) = (Val (Some e), st')
    ∧ (Status (cl st') = ClusterStatusAddFailed ∨ dbConnectionError e).
Proof.
  assert (∃ e st', Create (exampleState ["createService"])
                   = (Val (Some e), st')) as (e & st' & E)
    by (do 2 eexists; vm_compute; reflexivity).
  exists e, st'. split; [exact E|].
  apply (Create_error_status (exampleState ["createService"]) st' e E).
Defined.

(** X21, an instance: the service cannot be updated. *)
Lemma Update_error_status_witness :
  ∃ e st',
    Update openedSpec (exampleState ["updateService"]) = (Val (Some e), st')
    ∧ (Status (cl st') = ClusterStatusUpdateFailed ∨ volumesOrGenerateError e).
Proof.
  assert (∃ e st', Update openedSpec (exampleState ["updateService"])
                   = (Val (Some e), st')) as (e & st' & E)
    by (do 2 eexists; vm_compute; reflexivity).
  exists e, st'. split; [exact E|].
  apply (Update_error_status openedSpec (exampleState ["updateService"]) st' e E).
Defined.
End MoreExampleFacts.
